(** * design-resolve: note index and key matcher

    A shallow embedding of the two TypeScript sources of the extension
    ([src/extension.ts], the strict grammar, and the second source file,
    the tolerant grammar) together with the part of the ECMAScript
    runtime they rely on: strings as sequences of UTF-16 code units,
    [String.prototype.trim], the backtracking regular-expression matcher,
    [new RegExp(pattern, 'g')] and the [lastIndex] protocol of
    [RegExp.prototype.exec]. *)

From Stdlib Require Import String Ascii.
From Stdlib Require Import List NArith Arith Bool Lia.
Import ListNotations.

Set Implicit Arguments.

(** ** Strings *)

(** A JavaScript string is a sequence of UTF-16 code units. *)
Definition jsstring := list N.

Definition js (s : string) : jsstring :=
  map N_of_ascii (list_ascii_of_string s).

Arguments js s%_string.

(** The code units the grammar of note files is made of. *)
Definition LB : N := 0x3010.     (* the opening bracket of a key marker *)
Definition RB : N := 0x3011.     (* the closing bracket of a key marker *)
Definition COLON : N := 0xFF1A.  (* the full-width colon *)
Definition NL : N := 10.         (* line feed *)
Definition CR : N := 13.         (* carriage return *)

Definition mem (c : N) (l : list N) : bool := existsb (N.eqb c) l.

(** ECMAScript LineTerminator code points. *)
Definition isLineTerminator (c : N) : bool :=
  mem c [0x0A; 0x0D; 0x2028; 0x2029]%N.

(** ECMAScript WhiteSpace code points (TAB, VT, FF, ZWNBSP and the
    Space_Separator category). *)
Definition isWhiteSpace (c : N) : bool :=
  mem c [0x09; 0x0B; 0x0C; 0x20; 0xA0; 0x1680; 0x202F; 0x205F; 0x3000; 0xFEFF]%N
  || ((0x2000 <=? c) && (c <=? 0x200A))%N.

(** What [trim] strips and what the class escape [\s] matches. *)
Definition isSpace (c : N) : bool := isWhiteSpace c || isLineTerminator c.

Fixpoint trimStart (s : jsstring) : jsstring :=
  match s with
  | [] => []
  | c :: s' => if isSpace c then trimStart s' else s
  end.

Definition trimEnd (s : jsstring) : jsstring := rev (trimStart (rev s)).

(** [String.prototype.trim]. *)
Definition trim (s : jsstring) : jsstring := trimEnd (trimStart s).

(** [s.substring(a, b)] for [a <= b]. *)
Definition slice (s : jsstring) (a b : nat) : jsstring :=
  firstn (b - a) (skipn a s).

(** Truthiness of a string: the empty string is the only falsy one. *)
Definition truthy (s : jsstring) : bool :=
  match s with [] => false | _ :: _ => true end.

(** ** Regular expressions *)

Inductive ClassAtom : Type :=
| CAChar (c : N)
| CARange (lo hi : N)
| CASpace                       (* \s *)
| CANotSpace.                   (* \S *)

(** The patterns of the sources, without flags other than [g]. *)
Inductive Regex : Type :=
| REmpty
| RChar (c : N)
| RDot
| RClass (invert : bool) (A : list ClassAtom)
| RSeq (r1 r2 : Regex)
| RAlt (r1 r2 : Regex)
| RQuant (greedy : bool) (min : nat) (max : option nat) (r : Regex)
| RGroup (n : nat) (r : Regex)
| RLook (positive : bool) (r : Regex)
| RBol
| REol.

Definition classAtomMatches (a : ClassAtom) (c : N) : bool :=
  match a with
  | CAChar d => N.eqb c d
  | CARange lo hi => ((lo <=? c) && (c <=? hi))%N
  | CASpace => isSpace c
  | CANotSpace => negb (isSpace c)
  end.

Definition classMatches (invert : bool) (A : list ClassAtom) (c : N) : bool :=
  xorb invert (existsb (fun a => classAtomMatches a c) A).

(** The capture of group [n] is stored at position [n - 1]. *)
Definition Captures := list (option (nat * nat)).

Record MatchState : Type := mkState {
  endIndex : nat;
  captures : Captures
}.

Fixpoint set_nth {A} (n : nat) (v : A) (l : list A) : list A :=
  match l, n with
  | [], _ => []
  | _ :: l', 0 => v :: l'
  | a :: l', S n' => a :: set_nth n' v l'
  end.

Definition setCapture (n : nat) (v : option (nat * nat)) (cap : Captures) : Captures :=
  match n with
  | 0 => cap
  | S k => set_nth k v cap
  end.

(** The capturing groups that occur in a pattern. *)
Fixpoint groupsOf (r : Regex) : list nat :=
  match r with
  | RSeq r1 r2 | RAlt r1 r2 => groupsOf r1 ++ groupsOf r2
  | RQuant _ _ _ r' | RLook _ r' => groupsOf r'
  | RGroup n r' => n :: groupsOf r'
  | _ => []
  end.

Definition clearCaptures (gs : list nat) (cap : Captures) : Captures :=
  fold_left (fun cp n => setCapture n None cp) gs cap.

Definition Continuation := MatchState -> option MatchState.

Section Matcher.

Variable Input : jsstring.

Definition charMatcher (p : N -> bool) (x : MatchState) (c : Continuation)
  : option MatchState :=
  match nth_error Input (endIndex x) with
  | Some ch => if p ch then c (mkState (S (endIndex x)) (captures x)) else None
  | None => None
  end.

(** RepeatMatcher: [m] matches the quantified atom, [gs] are its
    capturing groups, cleared before every iteration.  An iteration
    either lowers [min] or, once [min] is zero, must consume input, so
    [min] plus the remaining input bounds the number of iterations;
    [fuel] starts above that bound. *)
Fixpoint repeatMatcher (m : MatchState -> Continuation -> option MatchState)
    (gs : list nat) (greedy : bool) (c : Continuation)
    (fuel : nat) (min : nat) (max : option nat) (x : MatchState) {struct fuel}
  : option MatchState :=
  match fuel with
  | 0 => None
  | S fuel' =>
      match max with
      | Some 0 => c x
      | _ =>
          let d := fun y : MatchState =>
            if (min =? 0) && (endIndex y =? endIndex x) then None
            else repeatMatcher m gs greedy c fuel' (pred min) (option_map pred max) y in
          let xr := mkState (endIndex x) (clearCaptures gs (captures x)) in
          if min =? 0 then
            if greedy then
              match m xr d with
              | Some z => Some z
              | None => c x
              end
            else
              match c x with
              | Some z => Some z
              | None => m xr d
              end
          else m xr d
      end
  end.

(** The matcher of a pattern in continuation-passing style, after the
    ECMAScript semantics: [None] is failure. *)
Fixpoint matcher (r : Regex) (x : MatchState) (c : Continuation) {struct r}
  : option MatchState :=
  match r with
  | REmpty => c x
  | RChar ch => charMatcher (N.eqb ch) x c
  | RDot => charMatcher (fun a => negb (isLineTerminator a)) x c
  | RClass invert A => charMatcher (classMatches invert A) x c
  | RSeq r1 r2 => matcher r1 x (fun y => matcher r2 y c)
  | RAlt r1 r2 =>
      match matcher r1 x c with
      | Some z => Some z
      | None => matcher r2 x c
      end
  | RQuant greedy min max r' =>
      repeatMatcher (matcher r') (groupsOf r') greedy c
        (S (min + (length Input - endIndex x))) min max x
  | RGroup n r' =>
      matcher r' x (fun y =>
        c (mkState (endIndex y)
                   (setCapture n (Some (endIndex x, endIndex y)) (captures y))))
  | RLook positive r' =>
      match matcher r' x Some with
      | Some y => if positive then c (mkState (endIndex x) (captures y)) else None
      | None => if positive then None else c x
      end
  | RBol => if endIndex x =? 0 then c x else None
  | REol => if endIndex x =? length Input then c x else None
  end.

End Matcher.

(** The result of a successful [exec]: where the match starts, where it
    ends and what the groups captured. *)
Record MatchResult : Type := mkResult {
  index : nat;
  matchEnd : nat;
  groups : Captures
}.

Definition nGroups (r : Regex) : nat := fold_right Nat.max 0 (groupsOf r).

(** The pattern tried at position [i], no group captured yet. *)
Definition matchAt (r : Regex) (S : jsstring) (i : nat) : option MatchState :=
  matcher S r (mkState i (repeat None (nGroups r))) Some.

(** Try the pattern at [i], [i + 1], ... for [n] start positions. *)
Fixpoint search (r : Regex) (S : jsstring) (n i : nat) : option MatchResult :=
  match n with
  | 0 => None
  | Datatypes.S n' =>
      match matchAt r S i with
      | Some y => Some (mkResult i (endIndex y) (captures y))
      | None => search r S n' (Datatypes.S i)
      end
  end.

(** A RegExp object created with the [g] flag: its pattern and its
    mutable [lastIndex]. *)
Record RegExp : Type := mkRegExp {
  pattern : Regex;
  lastIndex : nat
}.

(** [RegExp.prototype.exec] (RegExpBuiltinExec) for a global, non-sticky,
    non-unicode object: the search starts at [lastIndex]; a match moves
    [lastIndex] to its end, a failure resets it to zero. *)
Definition exec (R : RegExp) (S : jsstring) : option MatchResult * RegExp :=
  if length S <? lastIndex R then (None, mkRegExp (pattern R) 0)
  else
    match search (pattern R) S (Datatypes.S (length S) - lastIndex R) (lastIndex R) with
    | Some m => (Some m, mkRegExp (pattern R) (matchEnd m))
    | None => (None, mkRegExp (pattern R) 0)
    end.

(** [match[n]] for a group that took part in the match. *)
Definition group (S : jsstring) (m : MatchResult) (n : nat) : jsstring :=
  match n with
  | 0 => slice S (index m) (matchEnd m)
  | Datatypes.S k =>
      match nth k (groups m) None with
      | Some (a, b) => slice S a b
      | None => []
      end
  end.

(** ** [new RegExp(key, 'g')]

    The sources build a pattern from the text of a key.  The fragment of
    the pattern grammar modelled here is: alternatives separated by [|],
    the assertions [^] and [$], the atoms [.], a pattern character and a
    backslash followed by a syntax character or [/], and the quantifiers
    [*], [+], [?] with their lazy forms.  A quantifier with nothing to
    repeat and a trailing backslash are syntax errors, as in ECMAScript.
    Groups, classes, braces and the other escapes are outside the
    fragment. *)

Inductive Compiled : Type :=
| Pattern (r : Regex)
| BadPattern                    (* SyntaxError *)
| OutsideFragment.

Definition isSyntaxCharacter (c : N) : bool :=
  mem c (js "^$\.*+?()[]{}|").

Fixpoint mkSeq (ts : list Regex) : Regex :=
  match ts with
  | [] => REmpty
  | [t] => t
  | t :: ts' => RSeq t (mkSeq ts')
  end.

Fixpoint mkAlt (first : Regex) (others : list Regex) : Regex :=
  match others with
  | [] => first
  | a :: others' => RAlt first (mkAlt a others')
  end.

Definition quantifierOf (c : N) : option (nat * option nat) :=
  if N.eqb c 42 then Some (0, None)             (* * *)
  else if N.eqb c 43 then Some (1, None)        (* + *)
  else if N.eqb c 63 then Some (0, Some 1)      (* ? *)
  else None.

(** [alts] are the finished alternatives and [terms] the terms of the
    current one, both most recent first; [q] tells whether the last term
    is an atom that a quantifier may follow. *)
Fixpoint parsePattern (p : jsstring) (alts terms : list Regex) (q : bool)
  : Compiled :=
  match p with
  | [] =>
      match rev (mkSeq (rev terms) :: alts) with
      | [] => Pattern REmpty
      | a :: others => Pattern (mkAlt a others)
      end
  | c :: p' =>
      match quantifierOf c with
      | Some (min, max) =>
          match q, terms with
          | true, atom :: terms' =>
              match p' with
              | c' :: p'' =>
                  if N.eqb c' 63
                  then parsePattern p'' alts (RQuant false min max atom :: terms') false
                  else parsePattern p' alts (RQuant true min max atom :: terms') false
              | [] => parsePattern p' alts (RQuant true min max atom :: terms') false
              end
          | _, _ => BadPattern
          end
      | None =>
          if N.eqb c 124 then parsePattern p' (mkSeq (rev terms) :: alts) [] false
          else if N.eqb c 94 then parsePattern p' alts (RBol :: terms) false
          else if N.eqb c 36 then parsePattern p' alts (REol :: terms) false
          else if N.eqb c 46 then parsePattern p' alts (RDot :: terms) true
          else if N.eqb c 92 then
            match p' with
            | [] => BadPattern
            | e :: p'' =>
                if isSyntaxCharacter e || N.eqb e 47
                then parsePattern p'' alts (RChar e :: terms) true
                else OutsideFragment
            end
          else if isSyntaxCharacter c then OutsideFragment
          else parsePattern p' alts (RChar c :: terms) true
      end
  end.

Definition compile (source : jsstring) : Compiled := parsePattern source [] [] false.

(** ** Outcomes of the asynchronous functions *)

Definition Uri := string.

Inductive Error : Type :=
| SyntaxError                   (* thrown by [new RegExp] *)
| CannotOpen (uri : Uri).       (* [openTextDocument] rejected *)

Arguments CannotOpen uri%_string.

(** A call returns a value, throws (its promise is rejected), is still
    inside a [while] loop when the fuel is spent, or has met a key whose
    pattern lies outside the modelled fragment. *)
Inductive Outcome (A : Type) : Type :=
| Returns (a : A)
| Throws (e : Error)
| Running
| NotModelled.

Arguments Returns {A} a.
Arguments Throws {A} e.
Arguments Running {A}.
Arguments NotModelled {A}.

Definition bind {A B} (o : Outcome A) (k : A -> Outcome B) : Outcome B :=
  match o with
  | Returns a => k a
  | Throws e => Throws e
  | Running => Running
  | NotModelled => NotModelled
  end.

Notation "x <- e ;; k" := (bind e (fun x => k))
  (at level 61, e at next level, right associativity).

(** [new RegExp(source, 'g')]: a fresh object, [lastIndex] zero. *)
Definition newRegExp (source : jsstring) : Outcome RegExp :=
  match compile source with
  | Pattern r => Returns (mkRegExp r 0)
  | BadPattern => Throws SyntaxError
  | OutsideFragment => NotModelled
  end.

(** What one turn of a loop body asks for. *)
Inductive Step (A B : Type) : Type :=
| Continue (a : A)
| Return (b : B).

Arguments Continue {A B} a.
Arguments Return {A B} b.

(** [while ((match = regex.exec(text)) !== null) { body }], the loop of
    every function of the sources.  The loop variable [a] stands for the
    array the body pushes to. *)
Fixpoint whileExec {A B} (fuel : nat) (regex : RegExp) (text : jsstring)
    (body : MatchResult -> A -> Step A B) (a : A) : Outcome (Step A B) :=
  match fuel with
  | 0 => Running
  | S fuel' =>
      match exec regex text with
      | (None, _) => Returns (Continue a)
      | (Some m, regex') =>
          match body m a with
          | Continue a' => whileExec fuel' regex' text body a'
          | Return b => Returns (Return b)
          end
      end
  end.

(** ** The host: positions, ranges, documents, the workspace *)

Record Position : Type := mkPosition {
  line : nat;
  character : nat
}.

Definition isBefore (p q : Position) : bool :=
  (line p <? line q) || ((line p =? line q) && (character p <? character q)).

Record Range : Type := mkRange {
  rangeStart : Position;
  rangeEnd : Position
}.

(** [Range.contains(position)]: the position is inside the range or at
    one of its two ends. *)
Definition contains (r : Range) (p : Position) : bool :=
  negb (isBefore p (rangeStart r)) && negb (isBefore (rangeEnd r) p).

(** The lines of a document; a line ends at LF, CR LF or CR. *)
Fixpoint linesFrom (s cur : jsstring) : list jsstring :=
  match s with
  | [] => [rev cur]
  | c :: s' =>
      if N.eqb c NL then rev cur :: linesFrom s' []
      else if N.eqb c CR then
        match s' with
        | d :: s'' =>
            if N.eqb d NL then rev cur :: linesFrom s'' []
            else rev cur :: linesFrom s' []
        | [] => rev cur :: linesFrom s' []
        end
      else linesFrom s' (c :: cur)
  end.

Definition lines (text : jsstring) : list jsstring := linesFrom text [].

(** [document.positionAt(offset)]; an offset past the end is clamped,
    and so is the column of an offset between the CR and the LF of a
    line end, which is the length of the line. *)
Fixpoint positionFrom (s : jsstring) (offset ln col : nat) : Position :=
  match offset, s with
  | 0, _ | _, [] => mkPosition ln col
  | S offset', c :: s' =>
      if N.eqb c NL then positionFrom s' offset' (S ln) 0
      else if N.eqb c CR then
        match s' with
        | d :: _ =>
            if N.eqb d NL then positionFrom s' offset' ln col
            else positionFrom s' offset' (S ln) 0
        | [] => positionFrom s' offset' (S ln) 0
        end
      else positionFrom s' offset' ln (S col)
  end.

Definition positionAt (text : jsstring) (offset : nat) : Position :=
  positionFrom text offset 0 0.

Record TextLine : Type := mkTextLine {
  lineText : jsstring;
  lineRange : Range
}.

(** [document.lineAt(n)]. *)
Definition lineAt (text : jsstring) (n : nat) : TextLine :=
  let t := nth n (lines text) [] in
  mkTextLine t (mkRange (mkPosition n 0) (mkPosition n (length t))).

(** A file found by [findFiles('**/*.des')]; [content] is [None] when
    [openTextDocument] cannot read it as text and rejects. *)
Record File : Type := mkFile {
  fileUri : Uri;
  content : option jsstring
}.

Arguments mkFile fileUri%_string content.

Definition Workspace := list File.

Definition openTextDocument (f : File) : Outcome jsstring :=
  match content f with
  | Some text => Returns text
  | None => Throws (CannotOpen (fileUri f))
  end.

(** ** The note index *)

Record NoteDefinition : Type := mkNote {
  key : jsstring;
  value : jsstring;
  uri : Uri;
  range : Range
}.

Arguments mkNote key value uri%_string range.

Definition anyChar : Regex := RClass false [CASpace; CANotSpace].   (* [\s\S] *)
Definition notRB : Regex := RClass true [CAChar RB].                (* [^RB] *)
Definition untilNextKey : Regex :=                                    (* (?=\nLB|$) *)
  RLook true (RAlt (RSeq (RChar NL) (RChar LB)) REol).

(** The body of the [while] loop of [parseNoteFiles]. *)
Definition noteOfMatch (fileUri : Uri) (text : jsstring) (m : MatchResult)
    (allNotes : list NoteDefinition) : Step (list NoteDefinition) Empty_set :=
  let key := trim (group text m 1) in
  let value := trim (group text m 2) in
  let position := positionAt text (index m) in
  let line := lineAt text (line position) in
  if truthy key && truthy value
  then Continue (allNotes ++ [mkNote key value fileUri (lineRange line)])
  else Continue allNotes.

Definition continued {A} (s : Step A Empty_set) : A :=
  match s with
  | Continue a => a
  | Return b => match b with end
  end.

Section NoteIndex.

(** The pattern of the regex literal, the one difference between the
    two sources. *)
Variable regex : Regex.

(** The body of the [for] loop of [parseNoteFiles]: one file. *)
Definition parseNoteFile (fuel : nat) (f : File) (allNotes : list NoteDefinition)
  : Outcome (list NoteDefinition) :=
  text <- openTextDocument f ;;
  s <- whileExec fuel (mkRegExp regex 0) text (noteOfMatch (fileUri f) text) allNotes ;;
  Returns (continued s).

Fixpoint parseNoteFilesFrom (fuel : nat) (noteFiles : list File)
    (allNotes : list NoteDefinition) : Outcome (list NoteDefinition) :=
  match noteFiles with
  | [] => Returns allNotes
  | f :: rest =>
      allNotes' <- parseNoteFile fuel f allNotes ;;
      parseNoteFilesFrom fuel rest allNotes'
  end.

Definition parseNoteFilesWith (fuel : nat) (ws : Workspace)
  : Outcome (list NoteDefinition) :=
  parseNoteFilesFrom fuel ws [].

End NoteIndex.

(** ** The key matcher *)

(** One occurrence of a key in the target text, as offsets. *)
Record MatchSpan : Type := mkSpan {
  spanKey : jsstring;
  startOffset : nat;
  endOffset : nat
}.

(** The two nested loops of [updateDecorations], on offsets. *)
Fixpoint findAllSpans (fuel : nat) (keys : list jsstring) (text : jsstring)
    (decorationsArray : list MatchSpan) : Outcome (list MatchSpan) :=
  match keys with
  | [] => Returns decorationsArray
  | key :: rest =>
      regex <- newRegExp key ;;
      s <- whileExec fuel regex text
             (fun m (acc : list MatchSpan) =>
                Continue (B := Empty_set)
                  (acc ++ [mkSpan key (index m) (index m + length key)]))
             decorationsArray ;;
      findAllSpans fuel rest text (continued s)
  end.

(** The two nested loops shared by [provideHover] and
    [provideDefinition]: the first note with a match whose range
    contains the position, and that range. *)
Fixpoint locate (fuel : nat) (allNotes : list NoteDefinition) (lineText : jsstring)
    (position : Position) : Outcome (option (NoteDefinition * Range)) :=
  match allNotes with
  | [] => Returns None
  | note :: rest =>
      regex <- newRegExp (key note) ;;
      s <- whileExec fuel regex lineText
             (fun m (_ : unit) =>
                let startPos := mkPosition (line position) (index m) in
                let endPos := mkPosition (line position) (index m + length (key note)) in
                let hoverRange := mkRange startPos endPos in
                if contains hoverRange position
                then Return (note, hoverRange)
                else Continue tt)
             tt ;;
      match s with
      | Return found => Returns (Some found)
      | Continue _ => locate fuel rest lineText position
      end
  end.

Record Editor : Type := mkEditor {
  languageId : string;
  document : jsstring
}.

Arguments mkEditor languageId%_string document.

Record Hover : Type := mkHover {
  codeblock : jsstring;           (* the value of the note *)
  source : Uri;                   (* the file named in the footer *)
  hoverRange : Range
}.

Record Location : Type := mkLocation {
  locationUri : Uri;
  locationRange : Range
}.

Arguments mkHover codeblock source%_string hoverRange.
Arguments mkLocation locationUri%_string locationRange.

Section Extension.

Variable regex : Regex.

(** [updateDecorations]: [None] when the editor is missing or not an
    outline document, otherwise the ranges given to [setDecorations]. *)
Definition updateDecorationsWith (fuel : nat) (ws : Workspace)
    (activeEditor : option Editor) : Outcome (option (list Range)) :=
  match activeEditor with
  | None => Returns None
  | Some editor =>
      if negb (String.eqb (languageId editor) "outline") then Returns None
      else
        allNotes <- parseNoteFilesWith regex fuel ws ;;
        let keys := map key allNotes in
        if length keys =? 0 then Returns (Some [])
        else
          let text := document editor in
          spans <- findAllSpans fuel keys text [] ;;
          Returns (Some (map (fun sp =>
                     mkRange (positionAt text (startOffset sp))
                             (positionAt text (endOffset sp))) spans))
  end.

Definition provideHoverWith (fuel : nat) (ws : Workspace) (document : jsstring)
    (position : Position) : Outcome (option Hover) :=
  allNotes <- parseNoteFilesWith regex fuel ws ;;
  let lineText := lineText (lineAt document (line position)) in
  found <- locate fuel allNotes lineText position ;;
  Returns (option_map (fun '(note, r) => mkHover (value note) (uri note) r) found).

Definition provideDefinitionWith (fuel : nat) (ws : Workspace) (document : jsstring)
    (position : Position) : Outcome (option Location) :=
  allNotes <- parseNoteFilesWith regex fuel ws ;;
  let lineText := lineText (lineAt document (line position)) in
  found <- locate fuel allNotes lineText position ;;
  Returns (option_map (fun '(note, _) => mkLocation (uri note) (range note)) found).

End Extension.

(** [src/extension.ts]: a key marker must be followed by the full-width
    colon.  With LB, RB and COLON for the three code units, the literal
    of line 28 is [/LB([^RB]+)RB COLON([\s\S]*?)(?=\nLB|$)/g]. *)
Module Strict.
Definition regex : Regex :=
  RSeq (RChar LB) (RSeq (RGroup 1 (RQuant true 1 None notRB))
    (RSeq (RChar RB) (RSeq (RChar COLON)
      (RSeq (RGroup 2 (RQuant false 0 None anyChar)) untilNextKey)))).
Definition parseNoteFiles := parseNoteFilesWith regex.
Definition updateDecorations := updateDecorationsWith regex.
Definition provideHover := provideHoverWith regex.
Definition provideDefinition := provideDefinitionWith regex.
End Strict.

(** The second source file: nothing is required after the marker, the
    literal of line 31 is [/LB([^RB]+)RB([\s\S]*?)(?=\nLB|$)/g].  Its
    decoration type is a global variable, set from the configured colour
    when the extension is activated and when the configuration changes;
    [updateDecorations] does nothing while it is not set. *)
Module Tolerant.
Definition regex : Regex :=
  RSeq (RChar LB) (RSeq (RGroup 1 (RQuant true 1 None notRB))
    (RSeq (RChar RB)
      (RSeq (RGroup 2 (RQuant false 0 None anyChar)) untilNextKey))).
Definition parseNoteFiles := parseNoteFilesWith regex.
Definition defaultColor : string := "rgba(207, 174, 174, 0.82)".
Definition createOrUpdateDecorationType (configured : option string) : option string :=
  Some match configured with
       | Some color => color
       | None => defaultColor
       end.
Definition updateDecorations (noteHighlightDecorationType : option string)
    (fuel : nat) (ws : Workspace) (activeEditor : option Editor)
  : Outcome (option (list Range)) :=
  match noteHighlightDecorationType with
  | None => Returns None
  | Some _ => updateDecorationsWith regex fuel ws activeEditor
  end.
Definition provideHover := provideHoverWith regex.
Definition provideDefinition := provideDefinitionWith regex.
End Tolerant.

(** * Definitions for the properties *)

(** ** Measures of patterns *)

(** The least number of turns of a quantifier. *)
Definition iterations (min : nat) (max : option nat) : nat :=
  match max with
  | Some k => Nat.min min k
  | None => min
  end.

(** A lower bound on the length of what a pattern matches. *)
Fixpoint minLen (r : Regex) : nat :=
  match r with
  | RChar _ | RDot | RClass _ _ => 1
  | RSeq r1 r2 => minLen r1 + minLen r2
  | RAlt r1 r2 => Nat.min (minLen r1) (minLen r2)
  | RQuant _ min max r' => iterations min max * minLen r'
  | RGroup _ r' => minLen r'
  | _ => 0
  end.

(** Whatever [m] returns was returned by its continuation, called at
    least [k] code units further and still inside the input. *)
Definition Advances (Input : jsstring) (k : nat)
    (m : MatchState -> Continuation -> option MatchState) : Prop :=
  forall x c z, m x c = Some z ->
    exists y, c y = Some z /\ endIndex x + k <= endIndex y /\
              (endIndex x <= length Input -> endIndex y <= length Input).

(** [m] calls its continuation only further on and inside the input:
    two continuations that agree there give the same result. *)
Definition Onward (Input : jsstring)
    (m : MatchState -> Continuation -> option MatchState) : Prop :=
  forall x c c',
    endIndex x <= length Input ->
    (forall y, endIndex x <= endIndex y <= length Input -> c y = c' y) ->
    m x c = m x c'.

(** ** The grammar of note files *)

(** The number of leading code units of [s] that satisfy [p]. *)
Fixpoint run (p : N -> bool) (s : jsstring) : nat :=
  match s with
  | c :: s' => if p c then S (run p s') else 0
  | [] => 0
  end.

(** A value may end at [j]: at the end of the input, or at a line feed
    that the opening bracket follows. *)
Definition boundaryAt (S : jsstring) (j : nat) : bool :=
  match nth_error S j with
  | Some a =>
      N.eqb NL a &&
      match nth_error S (j + 1) with
      | Some b => N.eqb LB b
      | None => false
      end
  | None => j =? length S
  end.

(** The first boundary at or after [pos], [s] being the text from [pos]
    on. *)
Fixpoint valueEndFrom (s : jsstring) (pos : nat) : nat :=
  match s with
  | [] => pos
  | c :: s' =>
      if N.eqb NL c && match s' with d :: _ => N.eqb LB d | [] => false end
      then pos
      else valueEndFrom s' (S pos)
  end.

Definition valueEnd (S : jsstring) (v0 : nat) : nat := valueEndFrom (skipn v0 S) v0.

(** The key marker that starts at [i], read off the grammar of the
    specification rather than the pattern.  The result gives where the key
    starts and ends and where the value starts and ends; [colon] tells
    whether the separator is required (the strict variant). *)
Definition markerAt (colon : bool) (S : jsstring) (i : nat)
  : option (nat * nat * nat * nat) :=
  match nth_error S i with
  | Some c =>
      if N.eqb LB c then
        let n := run (classMatches true [CAChar RB]) (skipn (i + 1) S) in
        let q := i + 1 + n in
        if n =? 0 then None
        else
          match nth_error S q with
          | Some _ =>
              if colon then
                match nth_error S (q + 1) with
                | Some d =>
                    if N.eqb COLON d
                    then Some (i + 1, q, q + 2, valueEnd S (q + 2))
                    else None
                | None => None
                end
              else Some (i + 1, q, q + 1, valueEnd S (q + 1))
          | None => None
          end
      else None
  | None => None
  end.

(** The state the matcher ends in for a marker. *)
Definition stateOfMarker (mk : nat * nat * nat * nat) : MatchState :=
  let '(a, b, v0, t) := mk in mkState t [Some (a, b); Some (v0, t)].

(** The end of both patterns: the value and the lookahead. *)
Definition valuePart : Regex :=
  RSeq (RGroup 2 (RQuant false 0 None anyChar)) untilNextKey.

(** ** Builds *)

(** The pattern of each source: [true] is the strict one. *)
Definition grammar (strict : bool) : Regex :=
  if strict then Strict.regex else Tolerant.regex.

(** The notes of one file, when the loop has finished. *)
Definition notesOfFile (regex : Regex) (f : File) (fuel : nat)
  : list NoteDefinition :=
  match parseNoteFile regex fuel f [] with
  | Returns notes => notes
  | _ => []
  end.

(** The fuel suffices for every readable file of the workspace. *)
Definition enough (fuel : nat) (ws : Workspace) : Prop :=
  Forall (fun f => forall text, content f = Some text -> length text < fuel) ws.

(** [openTextDocument] rejects for this file. *)
Definition unreadable (f : File) : bool :=
  match content f with
  | Some _ => false
  | None => true
  end.

(** [parseNoteFiles] of either source: [true] is [src/extension.ts]. *)
Definition parseNoteFilesOf (strict : bool) :=
  if strict then Strict.parseNoteFiles else Tolerant.parseNoteFiles.

(** The entry the loop body builds from a match. *)
Definition noteFrom (f : File) (text : jsstring) (m : MatchResult) : NoteDefinition :=
  mkNote (trim (group text m 1)) (trim (group text m 2)) (fileUri f)
         (lineRange (lineAt text (line (positionAt text (index m))))).

(** [n] was pushed for a match of [regex] in a readable file of [ws],
    and its key and its value are not empty. *)
Definition Origin (regex : Regex) (ws : Workspace) (n : NoteDefinition) : Prop :=
  exists f text R m R',
    In f ws /\ content f = Some text /\ pattern R = regex /\
    exec R text = (Some m, R') /\ n = noteFrom f text m /\
    key n <> [] /\ value n <> [].

(** The entry [n] comes from a key marker of [text]: an opening bracket
    at [i], the first closing bracket after it at [q], at least one code
    unit between them and, in the strict source, the colon after [q].
    Its key is what stands between the brackets, trimmed; its value is
    what stands between the marker and the first boundary after it,
    trimmed. *)
Definition CapturedFrom (strict : bool) (text : jsstring) (n : NoteDefinition)
  : Prop :=
  exists i q,
    nth_error text i = Some LB /\
    nth_error text q = Some RB /\
    i + 1 < q /\
    (forall j, i < j < q -> nth_error text j <> Some RB) /\
    (strict = true -> nth_error text (q + 1) = Some COLON) /\
    let v0 := if strict then q + 2 else q + 1 in
    let t := valueEnd text v0 in
    key n = trim (slice text (i + 1) q) /\
    value n = trim (slice text v0 t) /\
    v0 <= t <= length text /\
    boundaryAt text t = true /\
    (forall j, v0 <= j < t -> boundaryAt text j = false).

(** A key marker starts at [i]. *)
Definition isMarker (strict : bool) (text : jsstring) (i : nat) : bool :=
  match markerAt strict text i with
  | Some _ => true
  | None => false
  end.

(** The end of a value in the words of the specification: [j] is a line
    feed and the line after it begins with a key marker. *)
Definition markerLineAfter (strict : bool) (text : jsstring) (j : nat) : bool :=
  match nth_error text j with
  | Some c => N.eqb NL c && isMarker strict text (j + 1)
  | None => false
  end.

(** Every opening bracket of [text] that follows a line feed begins a
    key marker. *)
Definition markedLines (strict : bool) (text : jsstring) : bool :=
  forallb (fun j => implb (boundaryAt text j) (isMarker strict text (j + 1)))
          (seq 0 (length text)).

(** The entry [n] comes from a key marker of [text], as in
    [CapturedFrom], and its value is what the specification says: what
    stands between the marker and the next line that begins with a key
    marker, or the end of the input, trimmed.  That line starts at
    [t + 1], after the line feed at [t]; the value is the same with and
    without that line feed. *)
Definition UpToNextMarkerLine (strict : bool) (text : jsstring)
    (n : NoteDefinition) : Prop :=
  exists i q t,
    nth_error text i = Some LB /\
    nth_error text q = Some RB /\
    i + 1 < q /\
    (forall j, i < j < q -> nth_error text j <> Some RB) /\
    (strict = true -> nth_error text (q + 1) = Some COLON) /\
    let v0 := if strict then q + 2 else q + 1 in
    key n = trim (slice text (i + 1) q) /\
    value n = trim (slice text v0 t) /\
    value n = trim (slice text v0 (t + 1)) /\
    v0 <= t <= length text /\
    (t = length text \/ markerLineAfter strict text t = true) /\
    (forall j, v0 <= j < t -> markerLineAfter strict text j = false).

(** ** Occurrences of a key *)

(** The key occurs in the text at offset [i], code unit for code unit. *)
Definition occursAt (key text : jsstring) (i : nat) : Prop :=
  slice text i (i + length key) = key.

(** No code unit of the key means anything to the pattern grammar. *)
Definition literal (key : jsstring) : bool :=
  forallb (fun c => negb (isSyntaxCharacter c)) key.

(** [s] begins with [k]. *)
Fixpoint isPrefix (k s : jsstring) : bool :=
  match k, s with
  | [], _ => true
  | a :: k', b :: s' => N.eqb a b && isPrefix k' s'
  | _ :: _, [] => false
  end.

(** The first occurrence of [k] at [i], [i + 1], ..., [n] positions
    tried. *)
Fixpoint findFrom (k S : jsstring) (n i : nat) : option nat :=
  match n with
  | 0 => None
  | Datatypes.S n' =>
      if isPrefix k (skipn i S) then Some i else findFrom k S n' (Datatypes.S i)
  end.

(** The occurrences of [k] from [i] on, left to right, each search
    starting where the occurrence before it ends. *)
Fixpoint occurrencesFrom (fuel : nat) (k S : jsstring) (i : nat) : list nat :=
  match fuel with
  | 0 => []
  | Datatypes.S fuel' =>
      match findFrom k S (Datatypes.S (length S) - i) i with
      | Some j => j :: occurrencesFrom fuel' k S (j + length k)
      | None => []
      end
  end.

(** The occurrences of [k] in the whole text. *)
Definition occurrences (k S : jsstring) : list nat :=
  occurrencesFrom (Datatypes.S (length S)) k S 0.

(** Each element is at least [from], and the next one at least [d]
    later. *)
Fixpoint apart (d from : nat) (l : list nat) : Prop :=
  match l with
  | [] => True
  | j :: l' => from <= j /\ apart d (j + d) l'
  end.

(** The keys are not empty and hold no syntax character. *)
Definition plainKeys (keys : list jsstring) : Prop :=
  Forall (fun k => literal k = true /\ 0 < length k) keys.

(** The spans of the occurrences of a key. *)
Definition spansOf (k text : jsstring) : list MatchSpan :=
  map (fun j => mkSpan k j (j + length k)) (occurrences k text).

(** The range of an occurrence at column [j] of line [ln]. *)
Definition rangeOn (ln : nat) (k : jsstring) (j : nat) : Range :=
  mkRange (mkPosition ln j) (mkPosition ln (j + length k)).

(** The column lies in the half-open span of an occurrence at [j], the
    span of the glossary of the specification. *)
Definition inSpan (k : jsstring) (j col : nat) : Prop := j <= col < j + length k.

(** The entry has an occurrence on the line, among those the scan
    finds, that starts at or before the column of the position and ends
    at or after it. *)
Definition touches (lineText : jsstring) (position : Position) (n : NoteDefinition)
  : Prop :=
  exists j, In j (occurrences (key n) lineText) /\
            j <= character position <= j + length (key n).

(** The first entry, in the order of the index, with an occurrence
    whose range contains the position. *)
Fixpoint firstHit (notes : list NoteDefinition) (lineText : jsstring)
    (position : Position) : option (NoteDefinition * Range) :=
  match notes with
  | [] => None
  | n :: rest =>
      match find (fun j => contains (rangeOn (line position) (key n) j) position)
                 (occurrences (key n) lineText) with
      | Some j => Some (n, rangeOn (line position) (key n) j)
      | None => firstHit rest lineText position
      end
  end.

(** No opening bracket, or no closing bracket, anywhere in the text. *)
Definition unbracketed (text : jsstring) : Prop :=
  (forall j, nth_error text j <> Some LB) \/ (forall j, nth_error text j <> Some RB).

(** The line of the range of an entry, where definition lookup jumps. *)
Definition defLine (n : NoteDefinition) : nat := line (rangeStart (range n)).

(** Every element is smaller than all those after it. *)
Fixpoint increasing (l : list nat) : Prop :=
  match l with
  | [] => True
  | x :: l' => Forall (lt x) l' /\ increasing l'
  end.

(** The key is a pattern of the fragment that cannot match the empty
    string. *)
Definition consuming (key : jsstring) : Prop :=
  exists r, compile key = Pattern r /\ 0 < minLen r.

(** [starts] are where the matches of [r] begin that the loop
    [while (regex.exec(text))] goes through from [lastIndex = from] on
    when it ends: each is the leftmost match at or after the end of the
    one before it, none is empty, and after the last one the pattern
    matches nowhere. *)
Fixpoint matchesFrom (r : Regex) (text : jsstring) (from : nat) (starts : list nat)
  : Prop :=
  match starts with
  | [] => forall j, from <= j <= length text -> matchAt r text j = None
  | s :: rest =>
      from <= s /\
      (forall j, from <= j < s -> matchAt r text j = None) /\
      exists y,
        matchAt r text s = Some y /\
        s < endIndex y <= length text /\
        matchesFrom r text (endIndex y) rest
  end.

(** The spans of one key: the key is a pattern of the fragment, every
    span carries the key, and the spans start where the matches of that
    pattern do. *)
Definition groupOf (text k : jsstring) (g : list MatchSpan) : Prop :=
  exists r,
    compile k = Pattern r /\
    Forall (fun sp => spanKey sp = k) g /\
    matchesFrom r text 0 (map startOffset g).

(** ** The life of the decoration type *)

(** The decoration types of the second source as the host sees them.
    [current] is the global variable [noteHighlightDecorationType], a
    type being known by a number and made with a colour; [live] are the
    types created and not yet disposed; [next] numbers the next one. *)
Module Lifecycle.

Record Types : Type := mkTypes {
  current : option (nat * string);
  live : list nat;
  next : nat
}.

Definition dispose (d : nat) (types : list nat) : list nat :=
  remove Nat.eq_dec d types.

(** [createOrUpdateDecorationType]: the old type, if any, is disposed
    and a new one is created with the colour read from the settings, or
    with the default colour. *)
Definition createOrUpdateDecorationType (configured : option string) (st : Types)
  : Types :=
  let live' := match current st with
               | Some (d, _) => dispose d (live st)
               | None => live st
               end in
  let color := match configured with
               | Some c => c
               | None => Tolerant.defaultColor
               end in
  mkTypes (Some (next st, color)) (next st :: live') (S (next st)).

(** What the listeners registered by [activate] are called with:
    [affects] is the answer of [event.affectsConfiguration] and
    [configured] the colour the settings hold at that time. *)
Inductive Event : Type :=
| ActiveEditorChanged
| DocumentSaved
| ConfigurationChanged (affects : bool) (configured : option string).

Definition activate (configured : option string) : Types :=
  createOrUpdateDecorationType configured (mkTypes None [] 0).

(** Only a configuration change that affects the colour touches the
    decoration type; the two other listeners call [updateDecorations],
    which reads it. *)
Definition handle (st : Types) (e : Event) : Types :=
  match e with
  | ConfigurationChanged true configured => createOrUpdateDecorationType configured st
  | _ => st
  end.

(** [deactivate]: the type is disposed, the variable keeps it. *)
Definition deactivate (st : Types) : Types :=
  match current st with
  | Some (d, _) => mkTypes (current st) (dispose d (live st)) (next st)
  | None => st
  end.

End Lifecycle.

(** ** Inputs of the examples *)

(** A key marker around [k]. *)
Definition marker (k : string) : jsstring := [LB] ++ js k ++ [RB].

Arguments marker k%_string.

(** Three note files, the second of which cannot be read as text. *)
Definition threeFiles : Workspace :=
  [ mkFile "one.des" (Some (marker "A" ++ [COLON] ++ js "first"));
    mkFile "two.des" None;
    mkFile "three.des" (Some (marker "B" ++ [COLON] ++ js "third")) ].

(** The same without the unreadable file. *)
Definition twoFiles : Workspace :=
  [ mkFile "one.des" (Some (marker "A" ++ [COLON] ++ js "first"));
    mkFile "three.des" (Some (marker "B" ++ [COLON] ++ js "third")) ].

(** A workspace with one note file. *)
Definition oneFile (text : jsstring) : Workspace := [mkFile "notes.des" (Some text)].

(** The range of line [n], [len] code units long. *)
Definition wholeLine (n len : nat) : Range :=
  mkRange (mkPosition n 0) (mkPosition n len).

(** The inputs of the testable properties of the specification, and
    the same with the colon after each marker. *)
Definition emptyThenValue : jsstring :=
  marker "A" ++ [NL] ++ marker "B" ++ js "value".

Definition emptyThenValueColon : jsstring :=
  marker "A" ++ [COLON] ++ [NL] ++ marker "B" ++ [COLON] ++ js "value".

(** The entries expected of them. *)
Definition noteB : NoteDefinition :=
  mkNote (js "B") (js "value") "notes.des" (wholeLine 1 8).

Definition multiLine : jsstring :=
  marker "A" ++ js "line1" ++ [NL] ++ js "line2" ++ [NL] ++ marker "B" ++ js "line3".

Definition multiLineColon : jsstring :=
  marker "A" ++ [COLON] ++ js "line1" ++ [NL] ++ js "line2" ++ [NL] ++
  marker "B" ++ [COLON] ++ js "line3".

Definition noteA : NoteDefinition :=
  mkNote (js "A") (js "line1" ++ [NL] ++ js "line2") "notes.des" (wholeLine 0 8).

(** A marker, then a line that begins with a bracket never closed. *)
Definition unclosed : jsstring :=
  marker "A" ++ js "line1" ++ [NL] ++ [LB] ++ js "open" ++ [NL] ++ js "line2".

(** A marker without the colon. *)
Definition unmarked : jsstring := marker "A" ++ js "v".

(** An editor on an outline document. *)
Definition outline (text : jsstring) : option Editor :=
  Some (mkEditor "outline" text).

(** The decoration type after activation with no colour configured. *)
Definition activated : option string := Tolerant.createOrUpdateDecorationType None.

(** The range from column [a] to column [b] of the first line. *)
Definition onLine0 (a b : nat) : Range := mkRange (mkPosition 0 a) (mkPosition 0 b).

(** A note file whose one key is [a.b]. *)
Definition dotted : Workspace := oneFile (marker "a.b" ++ js "v").

(** A note file whose one key is [a*]. *)
Definition starred : Workspace := oneFile (marker "a*" ++ js "v").

(** The entry parsed from it. *)
Definition starNote : NoteDefinition :=
  mkNote (js "a*") (js "v") "notes.des" (wholeLine 0 5).

(** A note file with the key [a.b] and then the key [x]. *)
Definition dotThenX : Workspace :=
  oneFile (marker "a.b" ++ js "first" ++ [NL] ++ marker "x" ++ js "second").

(** The two entries parsed from it. *)
Definition dotNote : NoteDefinition :=
  mkNote (js "a.b") (js "first") "notes.des" (wholeLine 0 10).

Definition xNote : NoteDefinition :=
  mkNote (js "x") (js "second") "notes.des" (wholeLine 1 9).

(** An entry with the key [KEY]. *)
Definition keyNote : NoteDefinition :=
  mkNote (js "KEY") (js "v") "notes.des" (wholeLine 0 6).

(** * Properties *)

(** ** The matcher never moves backwards *)

Section Progress.

Variable Input : jsstring.

Lemma charMatcher_advances p : Advances Input 1 (charMatcher Input p).
Proof.
  intros x c z. unfold charMatcher.
  destruct (nth_error Input (endIndex x)) as [ch|] eqn:E; [|discriminate].
  destruct (p ch); [|discriminate]. intros H.
  eexists; split; [exact H|]. simpl.
  assert (endIndex x < length Input) by (apply nth_error_Some; congruence).
  lia.
Qed.

Lemma repeatMatcher_advances k m gs greedy c :
  Advances Input k m ->
  forall fuel min max x z,
    repeatMatcher m gs greedy c fuel min max x = Some z ->
    exists y, c y = Some z /\
              endIndex x + iterations min max * k <= endIndex y /\
              (endIndex x <= length Input -> endIndex y <= length Input).
Proof.
  intros Hm. induction fuel as [|fuel IH]; intros min max x z; simpl; [discriminate|].
  assert (Hstep : forall min' max',
    iterations (S min') (option_map S max') <= iterations min' max' + 1 ->
    m (mkState (endIndex x) (clearCaptures gs (captures x)))
      (fun y => if (S min' =? 0) && (endIndex y =? endIndex x) then None
                else repeatMatcher m gs greedy c fuel min' max' y) = Some z ->
    exists y, c y = Some z /\
              endIndex x + iterations (S min') (option_map S max') * k <= endIndex y /\
              (endIndex x <= length Input -> endIndex y <= length Input)).
  { intros min' max' Hit H. apply Hm in H. destruct H as (y1 & H1 & Hle & Hb).
    simpl in H1, Hle, Hb. apply IH in H1. destruct H1 as (y & Hy & Hle' & Hb').
    exists y. split; [exact Hy|]. split; [nia|]. intros; apply Hb', Hb; assumption. }
  assert (Hzero : forall max',
    m (mkState (endIndex x) (clearCaptures gs (captures x)))
      (fun y => if (0 =? 0) && (endIndex y =? endIndex x) then None
                else repeatMatcher m gs greedy c fuel 0 max' y) = Some z ->
    exists y, c y = Some z /\ endIndex x <= endIndex y /\
              (endIndex x <= length Input -> endIndex y <= length Input)).
  { intros max' H. apply Hm in H. destruct H as (y1 & H1 & Hle & Hb).
    simpl in H1, Hle, Hb. destruct (endIndex y1 =? endIndex x); [discriminate|].
    apply IH in H1. destruct H1 as (y & Hy & Hle' & Hb').
    exists y. split; [exact Hy|]. split; [lia|]. intros; apply Hb', Hb; assumption. }
  assert (Hself : c x = Some z ->
    exists y, c y = Some z /\ endIndex x <= endIndex y /\
              (endIndex x <= length Input -> endIndex y <= length Input)).
  { intros H. exists x. auto. }
  destruct max as [[|j]|]; simpl.
  - intros H. exists x. rewrite Nat.min_0_r. simpl. split; [exact H|]. split; [lia|auto].
  - destruct min as [|min']; simpl.
    + intros H.
      assert (Hor : c x = Some z \/
        m (mkState (endIndex x) (clearCaptures gs (captures x)))
          (fun y => if (0 =? 0) && (endIndex y =? endIndex x) then None
                    else repeatMatcher m gs greedy c fuel 0 (Some j) y) = Some z).
      { destruct greedy.
        - destruct (m _ _) eqn:E in H; [right; simpl; rewrite E; exact H | left; exact H].
        - destruct (c x) eqn:E in H; [left; congruence | right; exact H]. }
      destruct Hor as [H'|H']; [apply Hself in H' | apply Hzero in H'];
        destruct H' as (y & ? & ? & ?); exists y; repeat split; auto; lia.
    + intros H. apply (Hstep min' (Some j)) in H; [exact H|]. simpl. lia.
  - destruct min as [|min']; simpl.
    + intros H.
      assert (Hor : c x = Some z \/
        m (mkState (endIndex x) (clearCaptures gs (captures x)))
          (fun y => if (0 =? 0) && (endIndex y =? endIndex x) then None
                    else repeatMatcher m gs greedy c fuel 0 None y) = Some z).
      { destruct greedy.
        - destruct (m _ _) eqn:E in H; [right; simpl; rewrite E; exact H | left; exact H].
        - destruct (c x) eqn:E in H; [left; congruence | right; exact H]. }
      destruct Hor as [H'|H']; [apply Hself in H' | apply Hzero in H'];
        destruct H' as (y & ? & ? & ?); exists y; repeat split; auto; lia.
    + intros H. apply (Hstep min' None) in H; [exact H|]. simpl. lia.
Qed.

Lemma matcher_quant greedy min max r x c :
  matcher Input (RQuant greedy min max r) x c =
  repeatMatcher (matcher Input r) (groupsOf r) greedy c
    (S (min + (length Input - endIndex x))) min max x.
Proof. reflexivity. Qed.

Lemma matcher_advances r : Advances Input (minLen r) (matcher Input r).
Proof.
  induction r as [|ch| |inv A|r1 IH1 r2 IH2|r1 IH1 r2 IH2|greedy min max r IH
                 |n r IH|positive r IH| |];
    [simpl|simpl|simpl|simpl|simpl|simpl| |simpl|simpl|simpl|simpl].
  - intros x c z H. exists x. split; [exact H|]. split; [lia|auto].
  - apply charMatcher_advances.
  - apply charMatcher_advances.
  - apply charMatcher_advances.
  - intros x c z H. apply IH1 in H. destruct H as (y1 & H & Hle & Hb).
    apply IH2 in H. destruct H as (y & H & Hle' & Hb').
    exists y. split; [exact H|]. split; [lia|auto].
  - intros x c z H. destruct (matcher Input r1 x c) eqn:E.
    + apply IH1 in E. destruct E as (y & Hy & Hle & Hb).
      exists y. split; [congruence|]. split; [lia|auto].
    + apply IH2 in H. destruct H as (y & Hy & Hle & Hb).
      exists y. split; [exact Hy|]. split; [lia|auto].
  - intros x c z H. rewrite matcher_quant in H.
    eapply repeatMatcher_advances in H; eauto.
  - intros x c z H. apply IH in H. destruct H as (y & H & Hle & Hb).
    eexists. split; [exact H|]. simpl. auto.
  - intros x c z H. destruct (matcher Input r x Some) as [y|]; destruct positive;
      try discriminate.
    + eexists. split; [exact H|]. simpl. split; [lia|auto].
    + exists x. split; [exact H|]. split; [lia|auto].
  - intros x c z H. destruct (endIndex x =? 0); [|discriminate].
    exists x. split; [exact H|]. split; [lia|auto].
  - intros x c z H. destruct (endIndex x =? length Input); [|discriminate].
    exists x. split; [exact H|]. split; [lia|auto].
Qed.

Lemma charMatcher_local p : Onward Input (charMatcher Input p).
Proof.
  intros x c c' Hx Hc. unfold charMatcher.
  destruct (nth_error Input (endIndex x)) as [ch|] eqn:E; [|reflexivity].
  destruct (p ch); [|reflexivity]. apply Hc. simpl.
  assert (endIndex x < length Input) by (apply nth_error_Some; congruence). lia.
Qed.

Lemma repeatMatcher_local m gs greedy :
  Onward Input m ->
  forall fuel min max x c c',
    endIndex x <= length Input ->
    (forall y, endIndex x <= endIndex y <= length Input -> c y = c' y) ->
    repeatMatcher m gs greedy c fuel min max x =
    repeatMatcher m gs greedy c' fuel min max x.
Proof.
  intros Hm. induction fuel as [|fuel IH]; intros min max x c c' Hx Hc; [reflexivity|].
  simpl.
  assert (Hcx : c x = c' x) by (apply Hc; lia).
  assert (Hd : m (mkState (endIndex x) (clearCaptures gs (captures x)))
                 (fun y => if (min =? 0) && (endIndex y =? endIndex x) then None
                           else repeatMatcher m gs greedy c fuel (pred min)
                                  (option_map pred max) y)
             = m (mkState (endIndex x) (clearCaptures gs (captures x)))
                 (fun y => if (min =? 0) && (endIndex y =? endIndex x) then None
                           else repeatMatcher m gs greedy c' fuel (pred min)
                                  (option_map pred max) y)).
  { apply Hm; [exact Hx|]. simpl. intros y Hy.
    destruct ((min =? 0) && (endIndex y =? endIndex x)); [reflexivity|].
    apply IH; [lia|]. intros y' Hy'. apply Hc. lia. }
  rewrite Hd, Hcx. reflexivity.
Qed.

Lemma matcher_local r : Onward Input (matcher Input r).
Proof.
  induction r as [|ch| |inv A|r1 IH1 r2 IH2|r1 IH1 r2 IH2|greedy min max r IH
                 |n r IH|positive r IH| |]; intros x c c' Hx Hc.
  - apply Hc. lia.
  - apply charMatcher_local; assumption.
  - apply charMatcher_local; assumption.
  - apply charMatcher_local; assumption.
  - simpl. apply IH1; [exact Hx|]. intros y Hy. apply IH2; [lia|].
    intros y' Hy'. apply Hc. lia.
  - simpl. rewrite (IH1 x c c' Hx Hc), (IH2 x c c' Hx Hc). reflexivity.
  - rewrite !matcher_quant. apply repeatMatcher_local; assumption.
  - simpl. apply IH; [exact Hx|]. intros y Hy. apply Hc. simpl. exact Hy.
  - simpl. destruct (matcher Input r x Some) as [y|]; destruct positive;
      try reflexivity; apply Hc; simpl; lia.
  - simpl. destruct (endIndex x =? 0); [apply Hc; lia|reflexivity].
  - simpl. destruct (endIndex x =? length Input); [apply Hc; lia|reflexivity].
Qed.

(** The fuel of RepeatMatcher is never used up: above [min] plus the
    remaining input, any amount gives the same result. *)
Lemma repeatMatcher_fuel m gs greedy c :
  Onward Input m ->
  forall fuel fuel' min max x,
    endIndex x <= length Input ->
    min + (length Input - endIndex x) < fuel ->
    min + (length Input - endIndex x) < fuel' ->
    repeatMatcher m gs greedy c fuel min max x =
    repeatMatcher m gs greedy c fuel' min max x.
Proof.
  intros Hm. induction fuel as [|fuel IH]; intros fuel' min max x Hx H1 H2; [lia|].
  destruct fuel' as [|fuel']; [lia|]. simpl.
  assert (Hd : m (mkState (endIndex x) (clearCaptures gs (captures x)))
                 (fun y => if (min =? 0) && (endIndex y =? endIndex x) then None
                           else repeatMatcher m gs greedy c fuel (pred min)
                                  (option_map pred max) y)
             = m (mkState (endIndex x) (clearCaptures gs (captures x)))
                 (fun y => if (min =? 0) && (endIndex y =? endIndex x) then None
                           else repeatMatcher m gs greedy c fuel' (pred min)
                                  (option_map pred max) y)).
  { apply Hm; [exact Hx|]. simpl. intros y Hy.
    destruct (min =? 0) eqn:Emin; simpl.
    - apply Nat.eqb_eq in Emin. subst min.
      destruct (endIndex y =? endIndex x) eqn:Ey; [reflexivity|].
      apply Nat.eqb_neq in Ey. apply IH; simpl; lia.
    - apply Nat.eqb_neq in Emin. apply IH; lia. }
  rewrite Hd. reflexivity.
Qed.

(** A match at [i] ends inside the input, at least [minLen] later. *)
Lemma matchAt_bounds r i y :
  matchAt r Input i = Some y ->
  i + minLen r <= endIndex y /\ (i <= length Input -> endIndex y <= length Input).
Proof.
  unfold matchAt. intros H. apply matcher_advances in H.
  destruct H as (y' & H & Hle & Hb). injection H as <-. simpl in *. auto.
Qed.

End Progress.

(** ** [exec] and the [while] loop *)

Lemma search_some r S n i m :
  search r S n i = Some m ->
  i <= index m < i + n /\
  matchAt r S (index m) = Some (mkState (matchEnd m) (groups m)) /\
  (forall j, i <= j < index m -> matchAt r S j = None).
Proof.
  revert i. induction n as [|n IH]; intros i; simpl; [discriminate|].
  destruct (matchAt r S i) as [y|] eqn:E.
  - intros H. injection H as <-. simpl. destruct y; simpl.
    split; [lia|]. split; [exact E|]. intros; lia.
  - intros H. apply IH in H. destruct H as (Hi & Hm & Hfirst).
    split; [lia|]. split; [exact Hm|].
    intros j Hj. destruct (Nat.eq_dec j i) as [->|]; [exact E|]. apply Hfirst; lia.
Qed.

Lemma search_none r S n i :
  search r S n i = None -> forall j, i <= j < i + n -> matchAt r S j = None.
Proof.
  revert i. induction n as [|n IH]; intros i; simpl; [intros; lia|].
  destruct (matchAt r S i) eqn:E; [discriminate|].
  intros H j Hj. destruct (Nat.eq_dec j i) as [->|]; [exact E|].
  apply (IH _ H); lia.
Qed.

Arguments search_none : clear implicits.
Arguments search_some : clear implicits.

(** A successful [exec]: the leftmost match at or after [lastIndex]. *)
Lemma exec_some R S m R' :
  exec R S = (Some m, R') ->
  R' = mkRegExp (pattern R) (matchEnd m) /\
  lastIndex R <= index m /\
  index m + minLen (pattern R) <= matchEnd m <= length S /\
  matchAt (pattern R) S (index m) = Some (mkState (matchEnd m) (groups m)) /\
  (forall j, lastIndex R <= j < index m -> matchAt (pattern R) S j = None).
Proof.
  unfold exec. destruct (length S <? lastIndex R) eqn:El; [discriminate|].
  apply Nat.ltb_ge in El.
  destruct (search _ _ _ _) as [m'|] eqn:Es; [|discriminate].
  intros H. injection H as -> <-.
  apply search_some in Es. destruct Es as (Hi & Hm & Hfirst).
  pose proof (matchAt_bounds _ _ _ Hm) as [Hlo Hhi]. simpl in Hlo, Hhi.
  repeat split; auto; lia.
Qed.

Lemma exec_none R S R' :
  exec R S = (None, R') ->
  R' = mkRegExp (pattern R) 0 /\
  (forall j, lastIndex R <= j <= length S -> matchAt (pattern R) S j = None).
Proof.
  unfold exec. destruct (length S <? lastIndex R) eqn:El.
  - apply Nat.ltb_lt in El. intros H. injection H as <-. split; [reflexivity|]. intros; lia.
  - apply Nat.ltb_ge in El.
    destruct (search _ _ _ _) as [m'|] eqn:Es; [discriminate|].
    intros H. injection H as <-. split; [reflexivity|].
    intros j Hj. apply (search_none _ _ _ _ Es); lia.
Qed.

Section While.

Variables A B : Type.
Variable text : jsstring.
Variable body : MatchResult -> A -> Step A B.

(** The loop itself neither throws nor leaves the fragment. *)
Lemma whileExec_outcome fuel regex a :
  whileExec fuel regex text body a = Running \/
  exists s, whileExec fuel regex text body a = Returns s.
Proof.
  revert regex a. induction fuel as [|fuel IH]; intros regex a; simpl; [auto|].
  destruct (exec regex text) as [[m|] regex']; [|eauto].
  destruct (body m a); [apply IH|eauto].
Qed.

(** More fuel does not change a finished loop. *)
Lemma whileExec_mono fuel fuel' regex a s :
  whileExec fuel regex text body a = Returns s -> fuel <= fuel' ->
  whileExec fuel' regex text body a = Returns s.
Proof.
  revert fuel' regex a. induction fuel as [|fuel IH]; intros fuel' regex a; simpl;
    [discriminate|].
  intros H Hle. destruct fuel' as [|fuel']; [lia|]. simpl.
  destruct (exec regex text) as [[m|] regex']; [|exact H].
  destruct (body m a); [|exact H]. apply IH; [exact H|lia].
Qed.

(** A pattern that cannot match the empty string moves [lastIndex]
    forward each turn, so the loop ends within [length text] turns. *)
Lemma whileExec_terminates fuel regex a :
  0 < minLen (pattern regex) ->
  length text - lastIndex regex < fuel ->
  exists s, whileExec fuel regex text body a = Returns s.
Proof.
  intros Hmin. revert regex a Hmin.
  induction fuel as [|fuel IH]; intros regex a Hmin Hfuel; [lia|]. simpl.
  destruct (exec regex text) as [[m|] regex'] eqn:E; [|eauto].
  destruct (body m a) as [a'|b]; [|eauto].
  apply exec_some in E. destruct E as (-> & Hli & Hb & _).
  apply IH; simpl; [exact Hmin|lia].
Qed.

(** What holds of the array at the start and is kept by every turn
    holds at the end. *)
Lemma whileExec_invariant (Inv : A -> Prop) r fuel li a a' :
  (forall regex m regex' acc acc',
      pattern regex = r -> exec regex text = (Some m, regex') -> Inv acc ->
      body m acc = Continue acc' -> Inv acc') ->
  Inv a ->
  whileExec fuel (mkRegExp r li) text body a = Returns (Continue a') ->
  Inv a'.
Proof.
  intros Hbody. revert li a. induction fuel as [|fuel IH]; intros li a Ha; simpl;
    [discriminate|].
  destruct (exec (mkRegExp r li) text) as [[m|] regex'] eqn:E.
  - destruct (body m a) as [acc'|b] eqn:Eb; [|discriminate].
    pose proof (exec_some _ _ E) as (-> & _). simpl.
    apply IH. apply (Hbody (mkRegExp r li) m _ a acc' eq_refl E Ha Eb).
  - intros H. injection H as <-. exact Ha.
Qed.

End While.

(** ** What the pattern of note files matches *)

Lemma skipn_nth_error {A} (l : list A) n :
  skipn n l = match nth_error l n with
              | Some a => a :: skipn (S n) l
              | None => []
              end.
Proof.
  revert n. induction l as [|a l IH]; intros [|n]; simpl; auto.
Qed.

Lemma state_eta x : mkState (endIndex x) (captures x) = x.
Proof. destruct x; reflexivity. Qed.

#[local] Arguments N.eqb : simpl never.
#[local] Arguments nth_error : simpl never.
#[local] Arguments Nat.eqb : simpl never.
#[local] Arguments skipn : simpl never.

Section PatternFacts.

Variable S : jsstring.

Lemma matcher_seq r1 r2 x c :
  matcher S (RSeq r1 r2) x c = matcher S r1 x (fun y => matcher S r2 y c).
Proof. reflexivity. Qed.

Lemma matcher_char ch x c :
  matcher S (RChar ch) x c = charMatcher S (N.eqb ch) x c.
Proof. reflexivity. Qed.

Lemma matcher_group n r x c :
  matcher S (RGroup n r) x c =
  matcher S r x (fun y =>
    c (mkState (endIndex y)
               (setCapture n (Some (endIndex x, endIndex y)) (captures y)))).
Proof. reflexivity. Qed.

(** The lookahead [(?=\nLB|$)] succeeds exactly at a boundary and
    leaves the state as it is. *)
Lemma untilNextKey_spec x c :
  matcher S untilNextKey x c = if boundaryAt S (endIndex x) then c x else None.
Proof.
  unfold untilNextKey, boundaryAt. simpl. unfold charMatcher. simpl.
  destruct (nth_error S (endIndex x)) as [a|] eqn:Ea.
  - assert (Hlt : endIndex x < length S) by (apply nth_error_Some; congruence).
    assert (Hne : (endIndex x =? length S) = false) by (apply Nat.eqb_neq; lia).
    rewrite Hne. replace (endIndex x + 1) with (Datatypes.S (endIndex x)) by lia.
    destruct (N.eqb NL a); simpl; [|reflexivity].
    destruct (nth_error S (Datatypes.S (endIndex x))) as [b|]; [|reflexivity].
    destruct (N.eqb LB b); [|reflexivity]. simpl. rewrite state_eta. reflexivity.
  - destruct (endIndex x =? length S); [|reflexivity]. rewrite state_eta. reflexivity.
Qed.

(** A greedy star over a class runs to the end of the run of code
    units of the class when the continuation fails before that end. *)
Lemma greedy_star_run p c caps fuel s :
  let n := run p (skipn s S) in
  (forall j, s <= j < s + n -> c (mkState j caps) = None) ->
  n < fuel ->
  repeatMatcher (charMatcher S p) [] true c fuel 0 None (mkState s caps)
  = c (mkState (s + n) caps).
Proof.
  revert s. induction fuel as [|fuel IH]; intros s n Hc Hfuel; [lia|].
  subst n. rewrite skipn_nth_error in *. simpl. unfold charMatcher at 1. simpl.
  destruct (nth_error S s) as [ch|] eqn:Ech; simpl in *.
  - destruct (p ch) eqn:Ep.
    + replace (Datatypes.S s =? s) with false by (symmetry; apply Nat.eqb_neq; lia).
      rewrite IH.
      * replace (Datatypes.S s + run p (skipn (Datatypes.S s) S))
          with (s + Datatypes.S (run p (skipn (Datatypes.S s) S))) by lia.
        destruct (c (mkState (s + _) caps)) eqn:Ec; [reflexivity|].
        apply Hc. lia.
      * intros j Hj. apply Hc. lia.
      * lia.
    + rewrite Nat.add_0_r. reflexivity.
  - rewrite Nat.add_0_r. reflexivity.
Qed.

(** With [+] the run must not be empty. *)
Lemma greedy_plus_run p c caps fuel s :
  let n := run p (skipn s S) in
  (forall j, s < j < s + n -> c (mkState j caps) = None) ->
  n < fuel ->
  repeatMatcher (charMatcher S p) [] true c fuel 1 None (mkState s caps)
  = if n =? 0 then None else c (mkState (s + n) caps).
Proof.
  intros n Hc Hfuel. destruct fuel as [|fuel]; [lia|].
  subst n. rewrite skipn_nth_error in *. simpl. unfold charMatcher at 1. simpl.
  destruct (nth_error S s) as [ch|] eqn:Ech; simpl in *; [|reflexivity].
  destruct (p ch) eqn:Ep; [|reflexivity]. simpl.
  rewrite greedy_star_run.
  - f_equal. f_equal. lia.
  - intros j Hj. apply Hc. lia.
  - lia.
Qed.

(** A lazy star over a class that holds every code unit, such as
    [[\s\S]], stops at the first position where the continuation
    succeeds. *)
Lemma lazy_star_any p c caps z fuel s t :
  (forall ch, p ch = true) ->
  s <= t <= length S ->
  (forall j, s <= j < t -> c (mkState j caps) = None) ->
  c (mkState t caps) = Some z ->
  t - s < fuel ->
  repeatMatcher (charMatcher S p) [] false c fuel 0 None (mkState s caps) = Some z.
Proof.
  intros Hp. revert s. induction fuel as [|fuel IH]; intros s Hst Hc Ht Hfuel; [lia|].
  simpl. destruct (Nat.eq_dec s t) as [->|Hne].
  - rewrite Ht. reflexivity.
  - rewrite Hc by lia. unfold charMatcher at 1. simpl.
    destruct (nth_error S s) as [ch|] eqn:Ech.
    + rewrite Hp.
      replace (Datatypes.S s =? s) with false by (symmetry; apply Nat.eqb_neq; lia).
      apply IH; try lia; auto. intros j Hj. apply Hc. lia.
    + apply nth_error_None in Ech. lia.
Qed.

Lemma anyChar_all ch : classMatches false [CASpace; CANotSpace] ch = true.
Proof. unfold classMatches. simpl. destruct (isSpace ch); reflexivity. Qed.

End PatternFacts.

Section RunFacts.

Variable S : jsstring.
Variable p : N -> bool.

Lemma run_inside s j :
  j < run p (skipn s S) ->
  exists ch, nth_error S (s + j) = Some ch /\ p ch = true.
Proof.
  revert s. induction j as [|j IH]; intros s; rewrite skipn_nth_error;
    destruct (nth_error S s) as [ch|] eqn:E; simpl; try lia;
    destruct (p ch) eqn:Ep; try lia; intros H.
  - exists ch. rewrite Nat.add_0_r. auto.
  - destruct (IH (Datatypes.S s)) as (ch' & H1 & H2); [lia|].
    exists ch'. split; [|exact H2]. rewrite <- H1. f_equal. lia.
Qed.

Lemma run_stop s ch :
  nth_error S (s + run p (skipn s S)) = Some ch -> p ch = false.
Proof.
  remember (run p (skipn s S)) as n eqn:En. revert s En.
  induction n as [|n IH]; intros s En; rewrite skipn_nth_error in En;
    destruct (nth_error S s) as [c0|] eqn:E; simpl in En.
  - rewrite Nat.add_0_r, E. destruct (p c0) eqn:Ep; [discriminate|]. congruence.
  - rewrite Nat.add_0_r, E. discriminate.
  - destruct (p c0); [|discriminate]. injection En as En.
    replace (s + Datatypes.S n) with (Datatypes.S s + n) by lia. apply IH. exact En.
  - discriminate.
Qed.

Lemma run_bound s : s <= length S -> s + run p (skipn s S) <= length S.
Proof.
  intros Hs. destruct (run p (skipn s S)) as [|n] eqn:E; [lia|].
  destruct (run_inside s (j := n)) as (ch & H & _); [lia|].
  assert (s + n < length S) by (apply nth_error_Some; congruence). lia.
Qed.

End RunFacts.

Section ValueEnd.

Variable S : jsstring.

Lemma valueEndFrom_spec s pos :
  s = skipn pos S -> pos <= length S ->
  pos <= valueEndFrom s pos <= length S /\
  boundaryAt S (valueEndFrom s pos) = true /\
  (forall j, pos <= j < valueEndFrom s pos -> boundaryAt S j = false).
Proof.
  revert pos. induction s as [|c s IH]; intros pos Hs Hpos; simpl.
  - assert (Hlen : length (skipn pos S) = 0) by (rewrite <- Hs; reflexivity).
    rewrite length_skipn in Hlen. assert (pos = length S) by lia. subst pos.
    split; [lia|]. split; [|intros; lia].
    unfold boundaryAt.
    replace (nth_error S (length S)) with (@None N)
      by (symmetry; apply nth_error_None; lia).
    apply Nat.eqb_refl.
  - rewrite skipn_nth_error in Hs.
    destruct (nth_error S pos) as [c0|] eqn:E; [|discriminate].
    injection Hs as -> Hs.
    assert (Hlt : pos < length S) by (apply nth_error_Some; congruence).
    assert (Hb : boundaryAt S pos =
                 N.eqb NL c0 && match s with d :: _ => N.eqb LB d | [] => false end).
    { unfold boundaryAt. rewrite E. f_equal.
      replace (pos + 1) with (Datatypes.S pos) by lia.
      rewrite Hs, skipn_nth_error.
      destruct (nth_error S (Datatypes.S pos)); reflexivity. }
    rewrite <- Hb. destruct (boundaryAt S pos) eqn:Eb.
    + split; [lia|]. split; [exact Eb|intros; lia].
    + destruct (IH (Datatypes.S pos) Hs Hlt) as (Hr & Hbd & Hfirst).
      split; [lia|]. split; [exact Hbd|].
      intros j Hj. destruct (Nat.eq_dec j pos) as [->|]; [exact Eb|].
      apply Hfirst. lia.
Qed.

Lemma valueEnd_spec v0 :
  v0 <= length S ->
  v0 <= valueEnd S v0 <= length S /\
  boundaryAt S (valueEnd S v0) = true /\
  (forall j, v0 <= j < valueEnd S v0 -> boundaryAt S j = false).
Proof. intros H. apply valueEndFrom_spec; [reflexivity|exact H]. Qed.

End ValueEnd.

Section NotePattern.

Variable S : jsstring.

(** The value: the lazy group followed by the lookahead runs to the
    first boundary. *)
Lemma valuePart_spec cap1 v0 :
  v0 <= length S ->
  matcher S valuePart (mkState v0 [cap1; None]) Some =
  Some (mkState (valueEnd S v0) [cap1; Some (v0, valueEnd S v0)]).
Proof.
  intros Hv0. destruct (valueEnd_spec S Hv0) as (Hr & Hb & Hfirst).
  unfold valuePart. rewrite matcher_seq, matcher_group, matcher_quant.
  change (matcher S anyChar) with (charMatcher S (classMatches false [CASpace; CANotSpace])).
  apply lazy_star_any with (t := valueEnd S v0).
  - apply anyChar_all.
  - exact Hr.
  - intros j Hj. rewrite untilNextKey_spec. simpl. rewrite (Hfirst j Hj). reflexivity.
  - rewrite untilNextKey_spec. simpl. rewrite Hb. reflexivity.
  - simpl. lia.
Qed.

(** The marker: the opening bracket, the longest run without a closing
    bracket, which must not be empty, and the closing bracket. *)
Lemma keyPart_spec rest i :
  matcher S (RSeq (RChar LB) (RSeq (RGroup 1 (RQuant true 1 None notRB))
               (RSeq (RChar RB) rest))) (mkState i [None; None]) Some =
  match nth_error S i with
  | Some c =>
      if N.eqb LB c then
        let n := run (classMatches true [CAChar RB]) (skipn (i + 1) S) in
        let q := i + 1 + n in
        if n =? 0 then None
        else
          match nth_error S q with
          | Some _ => matcher S rest (mkState (q + 1) [Some (i + 1, q); None]) Some
          | None => None
          end
      else None
  | None => None
  end.
Proof.
  rewrite matcher_seq, matcher_char. unfold charMatcher at 1. simpl endIndex.
  destruct (nth_error S i) as [c|] eqn:Ei; [|reflexivity].
  destruct (N.eqb LB c); [|reflexivity]. simpl captures.
  assert (Hi : i < length S) by (apply nth_error_Some; congruence).
  rewrite matcher_seq, matcher_group, matcher_quant.
  change (matcher S notRB) with (charMatcher S (classMatches true [CAChar RB])).
  replace (Datatypes.S i) with (i + 1) by lia.
  set (p := classMatches true [CAChar RB]).
  pose proof (@run_bound S p (i + 1)) as Hbound.
  rewrite greedy_plus_run.
  - cbv zeta. destruct (run p (skipn (i + 1) S) =? 0); [reflexivity|].
    simpl endIndex. simpl captures. rewrite matcher_seq, matcher_char.
    unfold charMatcher at 1. simpl endIndex.
    destruct (nth_error S (i + 1 + run p (skipn (i + 1) S))) as [ch|] eqn:Eq;
      [|reflexivity].
    apply run_stop in Eq. unfold p, classMatches in Eq. simpl in Eq.
    rewrite orb_false_r in Eq. apply negb_false_iff, N.eqb_eq in Eq. subst ch.
    rewrite N.eqb_refl. simpl captures.
    replace (Datatypes.S (i + 1 + run p (skipn (i + 1) S)))
      with (i + 1 + run p (skipn (i + 1) S) + 1) by lia.
    reflexivity.
  - intros j Hj. simpl endIndex. simpl captures. rewrite matcher_seq, matcher_char.
    unfold charMatcher at 1. simpl endIndex.
    destruct (@run_inside S p (i + 1) (j - (i + 1))) as (ch & Hch & Hp); [lia|].
    replace (i + 1 + (j - (i + 1))) with j in Hch by lia. rewrite Hch.
    unfold p, classMatches in Hp. simpl in Hp. rewrite orb_false_r in Hp.
    apply negb_true_iff in Hp. rewrite N.eqb_sym, Hp. reflexivity.
  - simpl endIndex. lia.
Qed.

(** The pattern of the tolerant source matches a marker and its value
    as the grammar describes them. *)
Lemma matchAt_tolerant i :
  matchAt Tolerant.regex S i = option_map stateOfMarker (markerAt false S i).
Proof.
  unfold matchAt, Tolerant.regex, markerAt.
  change (repeat None (nGroups _)) with [@None (nat * nat); None].
  change (RSeq (RGroup 2 (RQuant false 0 None anyChar)) untilNextKey) with valuePart.
  rewrite keyPart_spec.
  destruct (nth_error S i) as [c|]; [|reflexivity].
  destruct (N.eqb LB c); [|reflexivity]. cbv zeta.
  destruct (_ =? 0); [reflexivity|].
  destruct (nth_error S _) as [ch|] eqn:Eq; [|reflexivity].
  assert (_ < length S) by (apply nth_error_Some; rewrite Eq; discriminate).
  rewrite valuePart_spec by lia. reflexivity.
Qed.

(** The strict one wants the colon after the marker. *)
Lemma matchAt_strict i :
  matchAt Strict.regex S i = option_map stateOfMarker (markerAt true S i).
Proof.
  unfold matchAt, Strict.regex, markerAt.
  change (repeat None (nGroups _)) with [@None (nat * nat); None].
  change (RSeq (RGroup 2 (RQuant false 0 None anyChar)) untilNextKey) with valuePart.
  rewrite keyPart_spec.
  destruct (nth_error S i) as [c|]; [|reflexivity].
  destruct (N.eqb LB c); [|reflexivity]. cbv zeta.
  destruct (_ =? 0); [reflexivity|].
  destruct (nth_error S _) as [ch|] eqn:Eq; [|reflexivity].
  rewrite matcher_seq, matcher_char. unfold charMatcher at 1. simpl endIndex.
  destruct (nth_error S (_ + 1)) as [d|] eqn:Ed; [|reflexivity].
  destruct (N.eqb COLON d); [|reflexivity]. simpl captures.
  assert (_ + 1 < length S) by (apply nth_error_Some; rewrite Ed; discriminate).
  match goal with
  | |- context [mkState (Datatypes.S (?q + 1))] =>
      replace (Datatypes.S (q + 1)) with (q + 2) by lia
  end.
  rewrite valuePart_spec by lia. reflexivity.
Qed.

End NotePattern.

(** What [markerAt] finds, spelled out. *)
Lemma markerAt_some colon S i a b v0 t :
  markerAt colon S i = Some (a, b, v0, t) ->
  a = i + 1 /\ a < b /\
  nth_error S i = Some LB /\
  nth_error S b = Some RB /\
  (forall j, a <= j < b -> nth_error S j <> Some RB) /\
  (colon = true -> nth_error S (b + 1) = Some COLON) /\
  v0 = (if colon then b + 2 else b + 1) /\
  v0 <= length S /\
  t = valueEnd S v0.
Proof.
  unfold markerAt.
  destruct (nth_error S i) as [c|] eqn:Ei; [|discriminate].
  destruct (N.eqb LB c) eqn:Ec; [|discriminate]. apply N.eqb_eq in Ec. subst c.
  set (p := classMatches true [CAChar RB]). cbv zeta.
  destruct (run p (skipn (i + 1) S)) as [|n] eqn:En; [discriminate|].
  change (Datatypes.S n =? 0) with false. cbv iota.
  destruct (nth_error S (i + 1 + Datatypes.S n)) as [ch|] eqn:Eq; [|discriminate].
  assert (Hch : ch = RB).
  { rewrite <- En in Eq. apply run_stop in Eq. unfold p, classMatches in Eq.
    simpl in Eq. rewrite orb_false_r in Eq. apply negb_false_iff, N.eqb_eq in Eq.
    exact Eq. }
  subst ch.
  assert (Hq : i + 1 + Datatypes.S n < length S) by (apply nth_error_Some; congruence).
  assert (Hrun : forall j, i + 1 <= j < i + 1 + Datatypes.S n -> nth_error S j <> Some RB).
  { intros j Hj Hj'.
    destruct (@run_inside S p (i + 1) (j - (i + 1))) as (ch & Hch & Hp); [lia|].
    replace (i + 1 + (j - (i + 1))) with j in Hch by lia.
    assert (ch = RB) by congruence. subst ch. discriminate Hp. }
  destruct colon.
  - destruct (nth_error S (i + 1 + Datatypes.S n + 1)) as [d|] eqn:Ed; [|discriminate].
    destruct (N.eqb COLON d) eqn:Ecol; [|discriminate]. apply N.eqb_eq in Ecol. subst d.
    assert (i + 1 + Datatypes.S n + 1 < length S) by (apply nth_error_Some; congruence).
    intros Hr. injection Hr as <- <- <- <-.
    repeat split; auto; lia.
  - intros Hr. injection Hr as <- <- <- <-.
    repeat split; auto; try lia; discriminate.
Qed.

Lemma matchAt_grammar strict S i :
  matchAt (grammar strict) S i = option_map stateOfMarker (markerAt strict S i).
Proof. destruct strict; [apply matchAt_strict|apply matchAt_tolerant]. Qed.

Lemma grammar_minLen strict : 0 < minLen (grammar strict).
Proof. destruct strict; simpl; lia. Qed.

(** ** One file *)

Section OneFile.

Variable regex : Regex.
Variable f : File.

(** The array does not influence the loop: what a file adds is
    appended to what was there. *)
Lemma whileExec_append text fuel R acc :
  whileExec fuel R text (noteOfMatch (fileUri f) text) acc =
  match whileExec fuel R text (noteOfMatch (fileUri f) text) [] with
  | Returns s => Returns (Continue (acc ++ continued s))
  | Throws e => Throws e
  | Running => Running
  | NotModelled => NotModelled
  end.
Proof.
  revert R acc. induction fuel as [|fuel IH]; intros R acc; simpl; [reflexivity|].
  destruct (exec R text) as [[m|] R'].
  - unfold noteOfMatch at 1 3.
    destruct (truthy _ && truthy _).
    + rewrite IH. rewrite (IH R' ([] ++ _)).
      destruct (whileExec fuel R' text _ []) as [s| | |]; try reflexivity.
      simpl. rewrite <- app_assoc. reflexivity.
    + apply IH.
  - simpl. rewrite app_nil_r. reflexivity.
Qed.

Lemma parseNoteFile_unreadable fuel acc :
  content f = None ->
  parseNoteFile regex fuel f acc = Throws (CannotOpen (fileUri f)).
Proof. intros H. unfold parseNoteFile, openTextDocument. rewrite H. reflexivity. Qed.

Lemma parseNoteFile_readable fuel acc text :
  0 < minLen regex ->
  content f = Some text -> length text < fuel ->
  parseNoteFile regex fuel f acc = Returns (acc ++ notesOfFile regex f fuel).
Proof.
  intros Hmin Hc Hfuel. unfold notesOfFile, parseNoteFile, openTextDocument.
  rewrite Hc. simpl. rewrite whileExec_append.
  destruct (@whileExec_terminates _ Empty_set text (noteOfMatch (fileUri f) text)
              fuel (mkRegExp regex 0) []) as (s & Hs); [exact Hmin|simpl; lia|].
  rewrite Hs. reflexivity.
Qed.

(** The result does not depend on the fuel, once there is enough. *)
Lemma notesOfFile_fuel fuel fuel' text :
  0 < minLen regex ->
  content f = Some text -> length text < fuel -> length text < fuel' ->
  notesOfFile regex f fuel = notesOfFile regex f fuel'.
Proof.
  intros Hmin Hc H1 H2. unfold notesOfFile, parseNoteFile, openTextDocument.
  rewrite Hc. simpl.
  destruct (@whileExec_terminates _ Empty_set text (noteOfMatch (fileUri f) text)
              (Datatypes.S (length text)) (mkRegExp regex 0) []) as (s & Hs);
    [exact Hmin|simpl; lia|].
  rewrite (whileExec_mono _ _ _ _ Hs (fuel' := fuel)) by lia.
  rewrite (whileExec_mono _ _ _ _ Hs (fuel' := fuel')) by lia.
  reflexivity.
Qed.

End OneFile.

(** ** All files *)

Section AllFiles.

Variable regex : Regex.
Hypothesis regex_consumes : 0 < minLen regex.

(** The [for] loop stops at the first file that cannot be opened; the
    notes gathered so far are lost with the rejected promise. *)
Lemma parseNoteFilesFrom_spec fuel ws acc :
  enough fuel ws ->
  parseNoteFilesFrom regex fuel ws acc =
  match find unreadable ws with
  | Some f => Throws (CannotOpen (fileUri f))
  | None => Returns (acc ++ flat_map (fun f => notesOfFile regex f fuel) ws)
  end.
Proof.
  intros Hfuel. revert acc. induction Hfuel as [|f ws Hf Hws IH]; intros acc; simpl.
  - rewrite app_nil_r. reflexivity.
  - unfold unreadable at 1. destruct (content f) as [text|] eqn:Ec.
    + rewrite (@parseNoteFile_readable regex f fuel acc text regex_consumes Ec (Hf _ eq_refl)).
      simpl. rewrite IH. destruct (find unreadable ws); [reflexivity|].
      rewrite app_assoc. reflexivity.
    + rewrite parseNoteFile_unreadable by exact Ec. reflexivity.
Qed.

Lemma flat_map_notes_fuel fuel fuel' ws :
  enough fuel ws -> enough fuel' ws ->
  flat_map (fun f => notesOfFile regex f fuel) ws =
  flat_map (fun f => notesOfFile regex f fuel') ws.
Proof.
  intros H1 H2. induction ws as [|f ws IH]; simpl; [reflexivity|].
  inversion H1; subst. inversion H2; subst. f_equal; [|auto].
  destruct (content f) as [text|] eqn:Ec.
  - eapply notesOfFile_fuel; eauto.
  - unfold notesOfFile. rewrite !parseNoteFile_unreadable by exact Ec. reflexivity.
Qed.

End AllFiles.

(** More fuel does not change a finished build. *)
Lemma parseNoteFile_mono regex fuel fuel' f acc notes :
  parseNoteFile regex fuel f acc = Returns notes -> fuel <= fuel' ->
  parseNoteFile regex fuel' f acc = Returns notes.
Proof.
  unfold parseNoteFile. destruct (openTextDocument f) as [text| | |]; simpl; auto.
  destruct (whileExec fuel _ text _ acc) as [s| | |] eqn:E; simpl; try discriminate.
  intros H Hle. rewrite (whileExec_mono _ _ _ _ E Hle). exact H.
Qed.

Lemma parseNoteFilesFrom_mono regex fuel fuel' ws acc notes :
  parseNoteFilesFrom regex fuel ws acc = Returns notes -> fuel <= fuel' ->
  parseNoteFilesFrom regex fuel' ws acc = Returns notes.
Proof.
  intros H Hle. revert acc H. induction ws as [|f ws IH]; intros acc; simpl; auto.
  destruct (parseNoteFile regex fuel f acc) as [acc'| | |] eqn:E; simpl;
    try discriminate.
  rewrite (parseNoteFile_mono _ _ _ E Hle). simpl. apply IH.
Qed.

(** ** [trim] *)

Lemma trimStart_fixed s :
  match s with [] => True | c :: _ => isSpace c = false end -> trimStart s = s.
Proof. destruct s as [|c s]; simpl; [reflexivity|]. intros ->. reflexivity. Qed.

Lemma trimStart_head s :
  match trimStart s with [] => True | c :: _ => isSpace c = false end.
Proof.
  induction s as [|c s IH]; simpl; [exact I|].
  destruct (isSpace c) eqn:E; [exact IH|exact E].
Qed.

Lemma trimStart_idem s : trimStart (trimStart s) = trimStart s.
Proof. apply trimStart_fixed, trimStart_head. Qed.

Lemma trimStart_app_keep s c :
  isSpace c = false -> exists u, trimStart (s ++ [c]) = u ++ [c].
Proof.
  intros Hc. induction s as [|a s IH]; simpl.
  - rewrite Hc. exists []. reflexivity.
  - destruct (isSpace a); [exact IH|]. exists (a :: s). reflexivity.
Qed.

Lemma trimEnd_head s :
  match s with [] => True | c :: _ => isSpace c = false end ->
  match trimEnd s with [] => True | c :: _ => isSpace c = false end.
Proof.
  destruct s as [|c s]; [intros; exact I|]. intros Hc. unfold trimEnd. simpl rev.
  destruct (trimStart_app_keep (rev s) _ Hc) as (u & ->).
  rewrite rev_app_distr. simpl. exact Hc.
Qed.

Lemma trimEnd_idem s : trimEnd (trimEnd s) = trimEnd s.
Proof. unfold trimEnd. rewrite rev_involutive, trimStart_idem. reflexivity. Qed.

(** Trimming what is trimmed changes nothing. *)
Lemma trim_idem s : trim (trim s) = trim s.
Proof.
  unfold trim at 1. rewrite (trimStart_fixed (trim s)).
  - unfold trim. apply trimEnd_idem.
  - unfold trim. apply trimEnd_head, trimStart_head.
Qed.

Lemma truthy_nonempty s : truthy s = true <-> s <> [].
Proof. destruct s; simpl; split; congruence. Qed.

(** ** The build: [parseNoteFiles] *)

Lemma parseNoteFilesOf_grammar strict :
  parseNoteFilesOf strict = parseNoteFilesWith (grammar strict).
Proof. destruct strict; reflexivity. Qed.

(** A file that cannot be opened makes every build fail, whatever the
    fuel and the pattern. *)
Lemma unreadable_never_returns regex fuel ws f acc notes :
  In f ws -> content f = None ->
  parseNoteFilesFrom regex fuel ws acc <> Returns notes.
Proof.
  intros Hin Hc. revert acc. induction ws as [|g ws IH]; intros acc; [destruct Hin|].
  simpl. destruct Hin as [->|Hin].
  - rewrite parseNoteFile_unreadable by exact Hc. discriminate.
  - destruct (parseNoteFile regex fuel g acc); simpl; try discriminate. apply IH, Hin.
Qed.

(** C4, as the specification states it, fails: with the second of three
    files unreadable the build of either source is rejected with the read
    failure of that file, and for no amount of fuel does it return the
    entries of the first and the third. *)
Lemma C4_counterexample :
  Strict.parseNoteFiles 20 threeFiles = Throws (CannotOpen "two.des") /\
  Tolerant.parseNoteFiles 20 threeFiles = Throws (CannotOpen "two.des") /\
  (forall strict fuel notes, parseNoteFilesOf strict fuel threeFiles <> Returns notes).
Proof.
  split; [vm_compute; reflexivity|]. split; [vm_compute; reflexivity|].
  intros strict fuel notes. rewrite parseNoteFilesOf_grammar.
  apply unreadable_never_returns with (f := mkFile "two.des" None);
    [right; left; reflexivity|reflexivity].
Qed.

(** C4, amended: [parseNoteFiles] does not skip a file that cannot be
    read as text.  The first such file, in the order of [findFiles],
    rejects the whole call with its read failure and no entry is
    returned, not even those of the files read before it; when every
    file can be read the call returns the entries of all files, file
    after file. *)
Theorem C4_read_failure_rejects_build strict fuel ws :
  enough fuel ws ->
  parseNoteFilesOf strict fuel ws =
  match find unreadable ws with
  | Some f => Throws (CannotOpen (fileUri f))
  | None => Returns (flat_map (fun f => notesOfFile (grammar strict) f fuel) ws)
  end.
Proof.
  intros Hfuel. rewrite parseNoteFilesOf_grammar. unfold parseNoteFilesWith.
  rewrite parseNoteFilesFrom_spec; [|apply grammar_minLen|exact Hfuel].
  destruct (find unreadable ws); reflexivity.
Qed.

Lemma enough_threeFiles : enough 20 threeFiles.
Proof.
  unfold enough, threeFiles.
  apply Forall_cons; [|apply Forall_cons; [|apply Forall_cons; [|apply Forall_nil]]];
    intros text H; simpl in H; try discriminate; injection H as <-; vm_compute; lia.
Defined.

Lemma C4_witness :
  parseNoteFilesOf true 20 threeFiles = Throws (CannotOpen "two.des").
Proof.
  exact (C4_read_failure_rejects_build true enough_threeFiles).
Defined.

(** C9: two calls of [parseNoteFiles] on the same files, each with fuel
    enough for the longest of them, both finish, and with the same
    outcome: the same entries in the same order, or the same failure. *)
Theorem C9_build_is_deterministic strict ws fuel1 fuel2 :
  enough fuel1 ws -> enough fuel2 ws ->
  parseNoteFilesOf strict fuel1 ws = parseNoteFilesOf strict fuel2 ws /\
  parseNoteFilesOf strict fuel1 ws <> Running.
Proof.
  intros H1 H2. rewrite parseNoteFilesOf_grammar. unfold parseNoteFilesWith.
  rewrite !parseNoteFilesFrom_spec by (auto using grammar_minLen).
  destruct (find unreadable ws); [split; [reflexivity|discriminate]|].
  split; [|discriminate]. simpl. f_equal.
  apply flat_map_notes_fuel; auto using grammar_minLen.
Qed.

Lemma enough_twoFiles fuel : 12 <= fuel -> enough fuel twoFiles.
Proof.
  intros Hfuel. unfold enough, twoFiles.
  apply Forall_cons; [|apply Forall_cons; [|apply Forall_nil]];
    intros text H; simpl in H; injection H as <-;
    apply Nat.lt_le_trans with (m := 12); [vm_compute; lia|exact Hfuel
                                          |vm_compute; lia|exact Hfuel].
Defined.

Lemma C9_witness :
  parseNoteFilesOf false 20 twoFiles = parseNoteFilesOf false 40 twoFiles /\
  parseNoteFilesOf false 20 twoFiles <> Running.
Proof.
  apply (@C9_build_is_deterministic false twoFiles 20 40);
    apply enough_twoFiles; lia.
Defined.

(** ** Where an entry comes from *)

Lemma parseNoteFile_origin regex ws fuel f acc notes :
  In f ws ->
  Forall (Origin regex ws) acc ->
  parseNoteFile regex fuel f acc = Returns notes ->
  Forall (Origin regex ws) notes.
Proof.
  intros Hin Hacc. unfold parseNoteFile, openTextDocument.
  destruct (content f) as [text|] eqn:Ec; [|discriminate]. simpl.
  destruct (whileExec fuel _ text _ acc) as [[notes'|[]]| | |] eqn:Ew; try discriminate.
  simpl. intros H. injection H as <-.
  refine (@whileExec_invariant _ _ text _ (Forall (Origin regex ws))
            regex fuel 0 acc notes' _ Hacc Ew).
  intros R m R' a a' Hp He Ha. unfold noteOfMatch.
  destruct (truthy (trim (group text m 1)) && truthy (trim (group text m 2))) eqn:Ekv;
    intros Hb; injection Hb as Hb; subst a'; [|exact Ha].
  apply andb_true_iff in Ekv. destruct Ekv as [Ek Ev].
  apply Forall_app. split; [exact Ha|]. constructor; [|constructor].
  exists f, text, R, m, R'. repeat split; auto; apply truthy_nonempty; assumption.
Qed.

Lemma parseNoteFilesFrom_origin regex ws fuel files acc notes :
  incl files ws ->
  Forall (Origin regex ws) acc ->
  parseNoteFilesFrom regex fuel files acc = Returns notes ->
  Forall (Origin regex ws) notes.
Proof.
  revert acc. induction files as [|f files IH]; intros acc Hincl Hacc; simpl.
  - intros H. injection H as <-. exact Hacc.
  - destruct (parseNoteFile regex fuel f acc) as [acc'| | |] eqn:Ef; simpl;
      try discriminate.
    apply IH; [intros g Hg; apply Hincl; right; exact Hg|].
    eapply parseNoteFile_origin; eauto. apply Hincl. left. reflexivity.
Qed.

(** Every entry of a build has an origin. *)
Lemma parseNoteFiles_origin regex fuel ws notes n :
  parseNoteFilesWith regex fuel ws = Returns notes -> In n notes ->
  Origin regex ws n.
Proof.
  intros H Hn. unfold parseNoteFilesWith in H.
  apply parseNoteFilesFrom_origin with (ws := ws) in H;
    [|apply incl_refl|constructor].
  rewrite Forall_forall in H. apply H, Hn.
Qed.

(** ** Empty keys and values *)

(** C6, as the specification states it, fails for [src/extension.ts]:
    its pattern wants the colon after a marker, so on the input of the
    claim it finds no marker at all and no entry is emitted for B. *)
Lemma C6_counterexample :
  Strict.parseNoteFiles 20 (oneFile emptyThenValue) = Returns [].
Proof. vm_compute. reflexivity. Qed.

(** C6, amended: in both sources a candidate whose trimmed key or
    trimmed value is empty adds nothing to the array and the loop goes
    on, so every entry of a build has a key and a value that are trimmed
    and not empty.  On the input of the claim, a marker A, a line break, a
    marker B and the word value, the tolerant source emits no entry for A
    and exactly one for B; the strict source does so on the same input
    with the colon after each marker. *)
Theorem C6_empty_candidates_dropped :
  (forall regex fuel ws notes n,
      parseNoteFilesWith regex fuel ws = Returns notes -> In n notes ->
      key n <> [] /\ value n <> [] /\
      trim (key n) = key n /\ trim (value n) = value n) /\
  (forall fileUri text m allNotes,
      trim (group text m 1) = [] \/ trim (group text m 2) = [] ->
      noteOfMatch fileUri text m allNotes = Continue allNotes) /\
  Tolerant.parseNoteFiles 20 (oneFile emptyThenValue)
    = Returns [mkNote (js "B") (js "value") "notes.des" (wholeLine 1 8)] /\
  Strict.parseNoteFiles 20 (oneFile emptyThenValueColon)
    = Returns [mkNote (js "B") (js "value") "notes.des" (wholeLine 1 9)].
Proof.
  split; [|split; [|split; vm_compute; reflexivity]].
  - intros regex fuel ws notes n H Hn.
    destruct (parseNoteFiles_origin _ _ _ n H Hn)
      as (f & text & R & m & R' & _ & _ & _ & _ & -> & Hk & Hv).
    simpl in *. rewrite !trim_idem. auto.
  - intros u text m acc H. unfold noteOfMatch.
    destruct H as [-> | ->]; simpl; [reflexivity|].
    rewrite andb_false_r. reflexivity.
Qed.

Lemma C6_witness :
  key noteB <> [] /\ value noteB <> [] /\
  trim (key noteB) = key noteB /\ trim (value noteB) = value noteB.
Proof.
  apply (proj1 C6_empty_candidates_dropped Tolerant.regex 20 (oneFile emptyThenValue)
           [noteB] noteB); [vm_compute; reflexivity|left; reflexivity].
Defined.

(** ** The value of a key marker *)

Lemma origin_captured strict ws n :
  Origin (grammar strict) ws n ->
  exists f text,
    In f ws /\ content f = Some text /\ uri n = fileUri f /\
    CapturedFrom strict text n.
Proof.
  intros (f & text & R & m & R' & Hin & Hc & Hp & He & -> & _ & _).
  exists f, text. split; [exact Hin|]. split; [exact Hc|]. split; [reflexivity|].
  apply exec_some in He. destruct He as (_ & _ & _ & Hm & _).
  rewrite Hp, matchAt_grammar in Hm.
  destruct (markerAt strict text (index m)) as [[[[a b] v0] t]|] eqn:Emk; [|discriminate].
  simpl in Hm. injection Hm as Hend Hgroups.
  apply markerAt_some in Emk.
  destruct Emk as (-> & Hab & Hi & Hb & Hrun & Hcolon & -> & Hv0 & ->).
  destruct (valueEnd_spec text Hv0) as (Hr & Hbd & Hfirst).
  exists (index m), b. unfold noteFrom, group. rewrite <- Hgroups. simpl.
  repeat split; auto; try lia. intros j Hj. apply Hrun. lia.
Qed.

(** C5, as the specification states it, fails for [src/extension.ts]:
    on the input of the claim, which has no colon after its markers, the
    strict source yields no entry, so neither A nor B has a value. *)
Lemma C5_counterexample :
  Strict.parseNoteFiles 30 (oneFile multiLine) = Returns [].
Proof. vm_compute. reflexivity. Qed.

Lemma markerLineAfter_boundary strict text j :
  markerLineAfter strict text j = true -> boundaryAt text j = true.
Proof.
  unfold markerLineAfter, boundaryAt, isMarker.
  destruct (nth_error text j) as [c|]; [|discriminate].
  destruct (N.eqb NL c); [|discriminate]. simpl.
  destruct (markerAt strict text (j + 1)) as [[[[a b] v0] t]|] eqn:E; [|discriminate].
  apply markerAt_some in E. destruct E as (_ & _ & -> & _). intros _.
  apply N.eqb_refl.
Qed.

Lemma markedLines_boundary strict text j :
  markedLines strict text = true -> j < length text ->
  boundaryAt text j = true -> markerLineAfter strict text j = true.
Proof.
  unfold markedLines. rewrite forallb_forall. intros H Hj Hb.
  assert (Hm : isMarker strict text (j + 1) = true).
  { specialize (H j). rewrite Hb in H. apply H, in_seq. lia. }
  unfold markerLineAfter. unfold boundaryAt in Hb.
  destruct (nth_error text j) as [c|] eqn:E.
  - apply andb_true_iff in Hb. destruct Hb as [-> _]. exact Hm.
  - apply nth_error_None in E. lia.
Qed.

Lemma trim_line_feed s : trim (s ++ [NL]) = trim s.
Proof.
  assert (H : trimStart (s ++ [NL]) = trimStart s ++ [NL] \/
              (trimStart (s ++ [NL]) = [] /\ trimStart s = [])).
  { induction s as [|c s IH]; simpl.
    - right. split; reflexivity.
    - destruct (isSpace c); [exact IH|left; reflexivity]. }
  unfold trim. destruct H as [-> | [-> ->]]; [|reflexivity].
  unfold trimEnd. rewrite rev_app_distr. reflexivity.
Qed.

Lemma firstn_line_feed (l : jsstring) k :
  nth_error l k = Some NL -> firstn (S k) l = firstn k l ++ [NL].
Proof.
  revert l. induction k as [|k IH]; intros [|c l] H; try discriminate H.
  - change (Some c = Some NL) in H. injection H as ->. reflexivity.
  - change (nth_error l k = Some NL) in H.
    change (c :: firstn (S k) l = c :: (firstn k l ++ [NL])).
    f_equal. apply IH, H.
Qed.

(** A value read up to the start of the next line is the value read up
    to the line feed before it. *)
Lemma slice_line_feed text a t :
  a <= t <= length text ->
  t = length text \/ nth_error text t = Some NL ->
  trim (slice text a (t + 1)) = trim (slice text a t).
Proof.
  intros Ha [He|Ht]; unfold slice.
  - rewrite !firstn_all2; [reflexivity| |]; rewrite length_skipn; lia.
  - replace (t + 1 - a) with (S (t - a)) by lia.
    rewrite firstn_line_feed; [apply trim_line_feed|].
    rewrite nth_error_skipn. replace (a + (t - a)) with t by lia. exact Ht.
Qed.

(** Where every bracket after a line feed begins a key marker, the first
    line feed that a bracket follows is the first line feed that a key
    marker follows. *)
Lemma captured_up_to_marker_line strict text n :
  markedLines strict text = true ->
  CapturedFrom strict text n -> UpToNextMarkerLine strict text n.
Proof.
  intros Hml (i & q & Hi & Hq & Hlt & Hrun & Hcolon & H). cbv zeta in H.
  destruct H as (Hk & Hv & Hb & Hbd & Hfirst).
  exists i, q, (valueEnd text (if strict then q + 2 else q + 1)).
  assert (Hend : valueEnd text (if strict then q + 2 else q + 1) = length text \/
                 markerLineAfter strict text
                   (valueEnd text (if strict then q + 2 else q + 1)) = true).
  { destruct (Nat.eq_dec (valueEnd text (if strict then q + 2 else q + 1))
                (length text)) as [He|Hne]; [left; exact He|right].
    apply markedLines_boundary; [exact Hml|lia|exact Hbd]. }
  repeat split; auto; try lia.
  - rewrite Hv. symmetry. apply slice_line_feed; [exact Hb|].
    destruct Hend as [He|Hm]; [left; exact He|right].
    unfold markerLineAfter in Hm.
    destruct (nth_error text (valueEnd text (if strict then q + 2 else q + 1)))
      as [c|]; [|discriminate].
    apply andb_true_iff in Hm. destruct Hm as [Hc _].
    apply N.eqb_eq in Hc. subst c. reflexivity.
  - intros j Hj. destruct (markerLineAfter strict text j) eqn:E; [|reflexivity].
    apply markerLineAfter_boundary in E. rewrite Hfirst in E by exact Hj.
    discriminate.
Qed.

(** The lookahead of both patterns asks for a line feed and an opening
    bracket, not for a key marker.  A line that begins with a bracket
    never closed ends the value of A, and that line and the next belong
    to no entry, although the comment on the pattern says that a value
    runs to the next key. *)
Lemma value_cut_at_unclosed_bracket :
  markedLines false unclosed = false /\
  Tolerant.parseNoteFiles 30 (oneFile unclosed)
    = Returns [mkNote (js "A") (js "line1") "notes.des" (wholeLine 0 8)].
Proof. split; vm_compute; reflexivity. Qed.

(** C5, amended: take a build and one of its entries, and let every
    opening bracket that follows a line feed in the entry's source begin
    a key marker.  Then the entry comes from a key marker of that source,
    followed in the strict source by the colon, and its value is every
    code unit after the marker (and the colon) up to but not including
    the next line that begins with a key marker, or up to the end of the
    input, trimmed.  On the input of the claim the tolerant source yields
    A with the two lines line1 and line2 and B with line3; the strict
    source yields the same on that input with the colon after each
    marker. *)
Theorem C5_value_runs_to_next_marker_line :
  (forall strict fuel ws notes n,
      parseNoteFilesOf strict fuel ws = Returns notes -> In n notes ->
      (forall f text,
          In f ws -> content f = Some text -> uri n = fileUri f ->
          markedLines strict text = true) ->
      exists f text,
        In f ws /\ content f = Some text /\ uri n = fileUri f /\
        UpToNextMarkerLine strict text n) /\
  Tolerant.parseNoteFiles 30 (oneFile multiLine)
    = Returns [mkNote (js "A") (js "line1" ++ [NL] ++ js "line2") "notes.des"
                      (wholeLine 0 8);
               mkNote (js "B") (js "line3") "notes.des" (wholeLine 2 8)] /\
  Strict.parseNoteFiles 30 (oneFile multiLineColon)
    = Returns [mkNote (js "A") (js "line1" ++ [NL] ++ js "line2") "notes.des"
                      (wholeLine 0 9);
               mkNote (js "B") (js "line3") "notes.des" (wholeLine 2 9)].
Proof.
  split; [|split; vm_compute; reflexivity].
  intros strict fuel ws notes n H Hn Hml. rewrite parseNoteFilesOf_grammar in H.
  assert (Ho : Origin (grammar strict) ws n)
    by (eapply parseNoteFiles_origin; eassumption).
  apply origin_captured in Ho. destruct Ho as (f & text & Hin & Hc & Hu & Hcap).
  exists f, text. repeat split; auto.
  apply captured_up_to_marker_line; [|exact Hcap].
  apply (Hml f text Hin Hc Hu).
Qed.

Lemma C5_witness :
  exists f text,
    In f (oneFile multiLine) /\ content f = Some text /\ uri noteA = fileUri f /\
    UpToNextMarkerLine false text noteA.
Proof.
  apply (proj1 C5_value_runs_to_next_marker_line false 30 (oneFile multiLine)
           [noteA; mkNote (js "B") (js "line3") "notes.des" (wholeLine 2 8)] noteA);
    [vm_compute; reflexivity|left; reflexivity|].
  intros f text [<-|[]] Hc _. injection Hc as <-. vm_compute. reflexivity.
Defined.

(** ** The two sources compared *)

Lemma markerAt_strict_tolerant S i a b v0 t :
  markerAt true S i = Some (a, b, v0, t) ->
  markerAt false S i = Some (a, b, b + 1, valueEnd S (b + 1)).
Proof.
  unfold markerAt.
  destruct (nth_error S i) as [c|]; [|discriminate].
  destruct (N.eqb LB c); [|discriminate]. cbv zeta.
  destruct (_ =? 0); [discriminate|].
  destruct (nth_error S (i + 1 + _)) as [ch|]; [|discriminate].
  destruct (nth_error S (_ + 1)) as [d|]; [|discriminate].
  destruct (N.eqb COLON d); [|discriminate].
  intros H. injection H as <- <- _ _. reflexivity.
Qed.

(** A value that starts with the colon ends where it ends without it. *)
Lemma valueEnd_after_colon S b :
  nth_error S b = Some COLON -> valueEnd S b = valueEnd S (b + 1).
Proof.
  intros H. unfold valueEnd. rewrite (skipn_nth_error S b), H. simpl.
  replace (Datatypes.S b) with (b + 1) by lia. reflexivity.
Qed.

Lemma search_nowhere r S n i :
  (forall j, matchAt r S j = None) -> search r S n i = None.
Proof.
  intros H. revert i. induction n as [|n IH]; intros i; simpl; [reflexivity|].
  rewrite H. apply IH.
Qed.

Lemma markerAt_needs_colon S i :
  (forall j, nth_error S j <> Some COLON) -> markerAt true S i = None.
Proof.
  intros H. destruct (markerAt true S i) as [[[[a b] v0] t]|] eqn:E; [|reflexivity].
  apply markerAt_some in E. destruct E as (_ & _ & _ & _ & _ & Hc & _).
  exfalso. apply (H (b + 1)), Hc. reflexivity.
Qed.

(** C10, as stated, fails: a marker without the colon is an entry for
    the tolerant source and nothing for the strict one. *)
Lemma C10_counterexample :
  Strict.parseNoteFiles 20 (oneFile unmarked) = Returns [] /\
  Tolerant.parseNoteFiles 20 (oneFile unmarked)
    = Returns [mkNote (js "A") (js "v") "notes.des" (wholeLine 0 4)] /\
  Strict.parseNoteFiles 20 (oneFile unmarked)
    <> Tolerant.parseNoteFiles 20 (oneFile unmarked).
Proof.
  split; [vm_compute; reflexivity|]. split; [vm_compute; reflexivity|].
  vm_compute. discriminate.
Qed.

(** C10, amended: the two sources are not equivalent.  Where the strict
    pattern matches, the tolerant pattern matches at the same position,
    with the same key and the same end, and its value is the colon
    followed by the value of the strict match; a text without the colon
    yields no entry in the strict source. *)
Theorem C10_strict_match_is_tolerant_match :
  (forall text i y,
      matchAt Strict.regex text i = Some y ->
      exists a b t,
        y = mkState t [Some (a, b); Some (b + 2, t)] /\
        nth_error text (b + 1) = Some COLON /\
        matchAt Tolerant.regex text i
          = Some (mkState t [Some (a, b); Some (b + 1, t)])) /\
  (forall text fuel,
      (forall j, nth_error text j <> Some COLON) -> 0 < fuel ->
      Strict.parseNoteFiles fuel (oneFile text) = Returns []).
Proof.
  split.
  - intros text i y H. rewrite matchAt_strict in H.
    destruct (markerAt true text i) as [[[[a b] v0] t]|] eqn:E; [|discriminate].
    simpl in H. injection H as <-.
    pose proof (markerAt_strict_tolerant _ _ E) as Et.
    apply markerAt_some in E. destruct E as (_ & _ & _ & _ & _ & Hc & -> & _ & ->).
    specialize (Hc eq_refl).
    exists a, b, (valueEnd text (b + 2)). split; [reflexivity|]. split; [exact Hc|].
    rewrite matchAt_tolerant, Et. simpl.
    rewrite (valueEnd_after_colon _ _ Hc).
    replace (b + 1 + 1) with (b + 2) by lia. reflexivity.
  - intros text fuel Hno Hfuel. destruct fuel as [|fuel]; [lia|].
    unfold Strict.parseNoteFiles, parseNoteFilesWith, oneFile. simpl.
    unfold parseNoteFile, openTextDocument. simpl.
    unfold exec. simpl lastIndex. simpl pattern.
    rewrite search_nowhere.
    + destruct (length text <? 0); reflexivity.
    + intros j. rewrite matchAt_strict, markerAt_needs_colon by exact Hno. reflexivity.
Qed.

Lemma C10_witness :
  exists a b t,
    mkState 6 [Some (1, 2); Some (4, 6)] = mkState t [Some (a, b); Some (b + 2, t)] /\
    nth_error (marker "A" ++ [COLON] ++ js "v1") (b + 1) = Some COLON /\
    matchAt Tolerant.regex (marker "A" ++ [COLON] ++ js "v1") 0
      = Some (mkState t [Some (a, b); Some (b + 1, t)]).
Proof.
  apply (proj1 C10_strict_match_is_tolerant_match
           (marker "A" ++ [COLON] ++ js "v1") 0).
  vm_compute. reflexivity.
Defined.

(** ** Keys used as patterns *)

Lemma short_text_no_occurrence (key text : jsstring) i :
  0 < length key -> length text < i + length key -> ~ occursAt key text i.
Proof.
  unfold occursAt, slice. intros Hkey Hlen H.
  apply (f_equal (@length N)) in H.
  rewrite length_firstn, length_skipn in H. lia.
Qed.

(** C1 fails on the code: the key [a.b] is compiled as a pattern, so its
    dot matches the [x] of [axb].  The text has no occurrence of the key,
    yet [updateDecorations] highlights it and hover and definition
    lookup answer on it, in both sources. *)
Theorem C1_dot_in_key_matches_any_character :
  (forall i, ~ occursAt (js "a.b") (js "axb") i) /\
  findAllSpans 10 [js "a.b"] (js "axb") [] = Returns [mkSpan (js "a.b") 0 3] /\
  Tolerant.updateDecorations activated 10 dotted (outline (js "axb"))
    = Returns (Some [onLine0 0 3]) /\
  Tolerant.provideHover 10 dotted (js "axb") (mkPosition 0 1)
    = Returns (Some (mkHover (js "v") "notes.des" (onLine0 0 3))) /\
  Tolerant.provideDefinition 10 dotted (js "axb") (mkPosition 0 1)
    = Returns (Some (mkLocation "notes.des" (wholeLine 0 6))) /\
  Strict.updateDecorations 10 (oneFile (marker "a.b" ++ [COLON] ++ js "v"))
    (outline (js "axb")) = Returns (Some [onLine0 0 3]).
Proof.
  split.
  - intros [|i].
    + vm_compute. discriminate.
    + apply short_text_no_occurrence; simpl; lia.
  - repeat split; vm_compute; reflexivity.
Qed.

(** C2 fails on the code: the end of a span is the start plus the length
    of the key, not the end of the match.  The key [ab?] matches the one
    code unit of the text [a] and the span runs to offset 3, outside the
    text; [positionAt] then clamps the end of the range to the text, so
    the range handed to the editor is not as long as the key. *)
Theorem C2_span_end_past_the_text :
  findAllSpans 10 [js "ab?"] (js "a") [] = Returns [mkSpan (js "ab?") 0 3] /\
  length (js "a") = 1 /\
  Tolerant.updateDecorations activated 10 (oneFile (marker "ab?" ++ js "v")) (outline (js "a"))
    = Returns (Some [onLine0 0 1]).
Proof. repeat split; vm_compute; reflexivity. Qed.

(** A match that leaves [lastIndex] where it was is found again and
    again. *)
Lemma whileExec_stuck A B text (body : MatchResult -> A -> Step A B) R m :
  exec R text = (Some m, R) ->
  (forall a, exists a', body m a = Continue a') ->
  forall fuel a, whileExec fuel R text body a = Running.
Proof.
  intros He Hb. induction fuel as [|fuel IH]; intros a; simpl; [reflexivity|].
  rewrite He. destruct (Hb a) as (a' & ->). apply IH.
Qed.

Lemma starred_notes fuel :
  Tolerant.parseNoteFiles fuel starred = Running \/
  Tolerant.parseNoteFiles fuel starred = Returns [starNote].
Proof.
  assert (H6 : Tolerant.parseNoteFiles 6 starred = Returns [starNote])
    by (vm_compute; reflexivity).
  destruct (Nat.le_gt_cases 6 fuel) as [Hle|Hlt].
  - right. eapply parseNoteFilesFrom_mono; [exact H6|exact Hle].
  - do 6 (destruct fuel as [|fuel];
          [first [left; vm_compute; reflexivity|right; vm_compute; reflexivity]|]).
    lia.
Qed.

Lemma star_spans_run fuel : findAllSpans fuel [js "a*"] (js "b") [] = Running.
Proof.
  change (findAllSpans fuel [js "a*"] (js "b") [])
    with (s <- whileExec fuel (mkRegExp (RQuant true 0 None (RChar 97)) 0) (js "b")
                 (fun m (acc : list MatchSpan) =>
                    Continue (B := Empty_set)
                      (acc ++ [mkSpan (js "a*") (index m) (index m + length (js "a*"))]))
                 [] ;;
          findAllSpans fuel [] (js "b") (continued s)).
  rewrite whileExec_stuck with (m := mkResult 0 0 []); [reflexivity|reflexivity|].
  intros a. eexists. reflexivity.
Qed.

Lemma star_locate_runs fuel :
  locate fuel [starNote] (js "b") (mkPosition 0 5) = Running.
Proof.
  cbn [locate starNote key]. change (newRegExp (js "a*"))
    with (Returns (mkRegExp (RQuant true 0 None (RChar 97)) 0)). cbn [bind].
  rewrite whileExec_stuck with (m := mkResult 0 0 []); [reflexivity|reflexivity|].
  intros a. eexists. reflexivity.
Qed.

(** C3 fails on the code: the key [a*], not empty and trimmed, is
    compiled as a pattern that matches the empty string; [exec] then
    returns the same empty match for ever and the loops of
    [updateDecorations], [provideHover] and [provideDefinition] never
    end, whatever the fuel. *)
Theorem C3_empty_match_loops_for_ever :
  trim (js "a*") = js "a*" /\
  (forall fuel, findAllSpans fuel [js "a*"] (js "b") [] = Running) /\
  (forall fuel, locate fuel [starNote] (js "b") (mkPosition 0 5) = Running) /\
  (forall fuel, Tolerant.updateDecorations activated fuel starred (outline (js "b")) = Running) /\
  (forall fuel, Tolerant.provideHover fuel starred (js "b") (mkPosition 0 5) = Running) /\
  (forall fuel,
      Tolerant.provideDefinition fuel starred (js "b") (mkPosition 0 5) = Running).
Proof.
  split; [vm_compute; reflexivity|].
  split; [exact star_spans_run|]. split; [exact star_locate_runs|].
  repeat split; intros fuel;
    unfold Tolerant.updateDecorations, activated, Tolerant.createOrUpdateDecorationType,
      Tolerant.provideHover,
      Tolerant.provideDefinition, updateDecorationsWith, provideHoverWith,
      provideDefinitionWith, outline;
    fold Tolerant.parseNoteFiles;
    destruct (starred_notes fuel) as [-> | ->]; try reflexivity.
  - change (map key [starNote]) with [js "a*"]. cbn [bind length Nat.eqb].
    simpl document. rewrite star_spans_run. reflexivity.
  - cbn [bind]. change (lineText (lineAt (js "b") (line (mkPosition 0 5)))) with (js "b").
    rewrite star_locate_runs. reflexivity.
  - cbn [bind]. change (lineText (lineAt (js "b") (line (mkPosition 0 5)))) with (js "b").
    rewrite star_locate_runs. reflexivity.
Qed.

(** C7, as the specification states it, fails.  First, [Range.contains]
    holds at the end of a range: on the line [KEY], at column 3, the
    entry with key [KEY] is returned although the span of its one
    occurrence, from 0 to 3 with 3 left out, does not contain the
    column.  Second, the key is compiled as a pattern: on the line [axb],
    at column 1, the entry with key [a.b] is returned, for hover and for
    definition lookup, although it has no occurrence on the line and the
    next entry, with key [x], has one at that column. *)
Lemma C7_counterexample :
  (locate 10 [keyNote] (js "KEY") (mkPosition 0 3)
     = Returns (Some (keyNote, onLine0 0 3)) /\
   forall j, occursAt (key keyNote) (js "KEY") j -> ~ inSpan (key keyNote) j 3) /\
  (Tolerant.parseNoteFiles 40 dotThenX = Returns [dotNote; xNote] /\
   (forall i, ~ occursAt (key dotNote) (js "axb") i) /\
   occursAt (key xNote) (js "axb") 1 /\
   inSpan (key xNote) 1 1 /\
   locate 10 [dotNote; xNote] (js "axb") (mkPosition 0 1)
     = Returns (Some (dotNote, onLine0 0 3)) /\
   Tolerant.provideHover 40 dotThenX (js "axb") (mkPosition 0 1)
     = Returns (Some (mkHover (js "first") "notes.des" (onLine0 0 3))) /\
   Tolerant.provideDefinition 40 dotThenX (js "axb") (mkPosition 0 1)
     = Returns (Some (mkLocation "notes.des" (wholeLine 0 10)))).
Proof.
  split; [split|split; [|split]].
  - vm_compute. reflexivity.
  - intros [|j] Hocc; unfold inSpan; simpl; [lia|].
    exfalso. revert Hocc. apply short_text_no_occurrence; simpl; lia.
  - vm_compute. reflexivity.
  - intros [|i].
    + vm_compute. discriminate.
    + apply short_text_no_occurrence; simpl; lia.
  - split; [vm_compute; reflexivity|]. split; [unfold inSpan; simpl; lia|].
    repeat split; vm_compute; reflexivity.
Qed.

(** C8 fails on the code: the text [aaa] has no occurrence of the key
    [a+], yet the pattern [a+] matches it and one span is produced, of
    the length of the key; and the key [*], which occurs nowhere either,
    is no pattern at all: [new RegExp] throws and [updateDecorations] is
    rejected instead of setting an empty list. *)
Theorem C8_spans_without_occurrence_and_errors :
  (forall i, ~ occursAt (js "a+") (js "aaa") i) /\
  findAllSpans 10 [js "a+"] (js "aaa") [] = Returns [mkSpan (js "a+") 0 2] /\
  Tolerant.updateDecorations activated 10 (oneFile (marker "a+" ++ js "v")) (outline (js "aaa"))
    = Returns (Some [onLine0 0 2]) /\
  (forall i, ~ occursAt (js "*") (js "aaa") i) /\
  findAllSpans 10 [js "*"] (js "aaa") [] = Throws SyntaxError /\
  Tolerant.updateDecorations activated 10 (oneFile (marker "*" ++ js "v")) (outline (js "aaa"))
    = Throws SyntaxError.
Proof.
  assert (Hlate : forall k i, 0 < length k -> 3 < i + length k ->
                              ~ occursAt k (js "aaa") i).
  { intros k i Hk Hi. apply short_text_no_occurrence; simpl; lia. }
  split.
  - intros [|[|i]]; [vm_compute; discriminate|vm_compute; discriminate|].
    apply Hlate; simpl; lia.
  - split; [vm_compute; reflexivity|]. split; [vm_compute; reflexivity|]. split.
    + intros [|[|[|i]]]; try (vm_compute; discriminate). apply Hlate; simpl; lia.
    + split; vm_compute; reflexivity.
Qed.

(** ** Keys without syntax characters *)

Unset Implicit Arguments.

Lemma mem_false c l x : mem c l = false -> In x l -> N.eqb c x = false.
Proof.
  unfold mem. induction l as [|a l IH]; simpl; [tauto|].
  intros H [->|Hin]; apply orb_false_iff in H; destruct H; auto.
Qed.

Lemma parsePattern_literal k terms q :
  literal k = true ->
  parsePattern k [] terms q = Pattern (mkSeq (rev terms ++ map RChar k)).
Proof.
  revert terms q. induction k as [|c k IH]; intros terms q; simpl.
  - intros _. rewrite app_nil_r. reflexivity.
  - intros H. apply andb_true_iff in H. destruct H as [Hc Hk].
    apply negb_true_iff in Hc.
    assert (Hne : forall x, In x (js "^$\.*+?()[]{}|") -> N.eqb c x = false)
      by (intros x; apply mem_false; exact Hc).
    unfold quantifierOf.
    rewrite (Hne 42%N), (Hne 43%N), (Hne 63%N), (Hne 124%N), (Hne 94%N),
      (Hne 36%N), (Hne 46%N), (Hne 92%N), Hc by (vm_compute; tauto).
    rewrite IH by exact Hk. simpl. rewrite <- app_assoc. reflexivity.
Qed.

(** A key without syntax characters is compiled to itself. *)
Lemma compile_literal k :
  literal k = true -> compile k = Pattern (mkSeq (map RChar k)).
Proof. intros H. unfold compile. rewrite parsePattern_literal by exact H. reflexivity. Qed.

Lemma groupsOf_literal k : groupsOf (mkSeq (map RChar k)) = [].
Proof.
  induction k as [|a k IH]; [reflexivity|].
  destruct k as [|b k]; [reflexivity|].
  change (groupsOf (RChar a) ++ groupsOf (mkSeq (map RChar (b :: k))) = []).
  rewrite IH. reflexivity.
Qed.

Lemma minLen_literal k : minLen (mkSeq (map RChar k)) = length k.
Proof.
  induction k as [|a k IH]; [reflexivity|].
  destruct k as [|b k]; [reflexivity|].
  change (minLen (RChar a) + minLen (mkSeq (map RChar (b :: k))) = length (a :: b :: k)).
  rewrite IH. reflexivity.
Qed.

Lemma matcher_literal S k x c :
  matcher S (mkSeq (map RChar k)) x c =
  if isPrefix k (skipn (endIndex x) S)
  then c (mkState (endIndex x + length k) (captures x))
  else None.
Proof.
  revert x. induction k as [|a k IH]; intros x.
  - simpl. rewrite Nat.add_0_r, state_eta. reflexivity.
  - assert (Hstep : matcher S (mkSeq (map RChar (a :: k))) x c =
                    charMatcher S (N.eqb a) x
                      (fun y => matcher S (mkSeq (map RChar k)) y c)).
    { destruct k; reflexivity. }
    rewrite Hstep. unfold charMatcher. rewrite skipn_nth_error.
    destruct (nth_error S (endIndex x)) as [ch|]; [|reflexivity].
    simpl isPrefix. destruct (N.eqb a ch); [|reflexivity].
    rewrite IH. simpl. replace (endIndex x + Datatypes.S (length k))
      with (Datatypes.S (endIndex x + length k)) by lia.
    reflexivity.
Qed.

(** The compiled key matches where the key stands, and nowhere else. *)
Lemma matchAt_literal S k i :
  matchAt (mkSeq (map RChar k)) S i =
  if isPrefix k (skipn i S) then Some (mkState (i + length k) []) else None.
Proof.
  unfold matchAt, nGroups. rewrite groupsOf_literal, matcher_literal. reflexivity.
Qed.

Lemma isPrefix_firstn k s : isPrefix k s = true <-> firstn (length k) s = k.
Proof.
  revert s. induction k as [|a k IH]; intros s; simpl; [tauto|].
  destruct s as [|b s]; [split; discriminate|].
  rewrite andb_true_iff, N.eqb_eq, IH. split.
  - intros [-> ->]. reflexivity.
  - intros H. injection H as -> H. auto.
Qed.

Lemma isPrefix_occursAt k S i : isPrefix k (skipn i S) = true <-> occursAt k S i.
Proof.
  unfold occursAt, slice. replace (i + length k - i) with (length k) by lia.
  apply isPrefix_firstn.
Qed.

Lemma search_literal S k n i :
  search (mkSeq (map RChar k)) S n i =
  option_map (fun j => mkResult j (j + length k) []) (findFrom k S n i).
Proof.
  revert i. induction n as [|n IH]; intros i; simpl; [reflexivity|].
  rewrite matchAt_literal. destruct (isPrefix k (skipn i S)); [reflexivity|apply IH].
Qed.

Lemma findFrom_some k S n i j :
  findFrom k S n i = Some j -> i <= j < i + n /\ occursAt k S j.
Proof.
  revert i. induction n as [|n IH]; intros i; simpl; [discriminate|].
  destruct (isPrefix k (skipn i S)) eqn:E.
  - intros H. injection H as <-. split; [lia|]. apply isPrefix_occursAt, E.
  - intros H. apply IH in H. destruct H. split; [lia|assumption].
Qed.

Lemma exec_literal S k li :
  exec (mkRegExp (mkSeq (map RChar k)) li) S =
  match findFrom k S (Datatypes.S (length S) - li) li with
  | Some j => (Some (mkResult j (j + length k) []),
               mkRegExp (mkSeq (map RChar k)) (j + length k))
  | None => (None, mkRegExp (mkSeq (map RChar k)) 0)
  end.
Proof.
  unfold exec. simpl pattern. simpl lastIndex. rewrite search_literal.
  destruct (length S <? li) eqn:E.
  - apply Nat.ltb_lt in E. replace (Datatypes.S (length S) - li) with 0 by lia.
    reflexivity.
  - destruct (findFrom _ _ _ _); reflexivity.
Qed.

Lemma occursAt_inside k S j :
  j <= length S -> occursAt k S j -> j + length k <= length S.
Proof.
  unfold occursAt, slice. intros Hj H. apply (f_equal (@length N)) in H.
  rewrite length_firstn, length_skipn in H. lia.
Qed.

Lemma findFrom_first k S n i j :
  findFrom k S n i = Some j -> forall p, i <= p < j -> ~ occursAt k S p.
Proof.
  revert i. induction n as [|n IH]; intros i; simpl; [discriminate|].
  destruct (isPrefix k (skipn i S)) eqn:E.
  - intros H. injection H as <-. intros; lia.
  - intros H p Hp Hocc. destruct (Nat.eq_dec p i) as [->|Hne].
    + apply isPrefix_occursAt in Hocc. congruence.
    + apply (IH _ H p); [lia|exact Hocc].
Qed.

Lemma findFrom_none k S n i :
  findFrom k S n i = None -> forall p, i <= p < i + n -> ~ occursAt k S p.
Proof.
  revert i. induction n as [|n IH]; intros i; simpl; [intros; lia|].
  destruct (isPrefix k (skipn i S)) eqn:E; [discriminate|].
  intros H p Hp Hocc. destruct (Nat.eq_dec p i) as [->|Hne].
  - apply isPrefix_occursAt in Hocc. congruence.
  - apply (IH _ H p); [lia|exact Hocc].
Qed.

#[local] Arguments Nat.sub : simpl never.

Section Occurrences.

Variables k S : jsstring.
Hypothesis k_not_empty : 0 < length k.

(** What the scan finds are occurrences, inside the text, that do not
    overlap. *)
Lemma occurrencesFrom_sound fuel i :
  Forall (fun j => occursAt k S j /\ j + length k <= length S)
         (occurrencesFrom fuel k S i) /\
  apart (length k) i (occurrencesFrom fuel k S i).
Proof.
  revert i. induction fuel as [|fuel IH]; intros i; simpl; [auto|].
  destruct (findFrom k S (Datatypes.S (length S) - i) i) as [j|] eqn:E; simpl; [|auto].
  apply findFrom_some in E. destruct E as [Hj Hocc].
  destruct (IH (j + length k)) as [Hall Hap].
  split; [|split; [lia|exact Hap]].
  constructor; [|exact Hall]. split; [exact Hocc|].
  apply occursAt_inside; [lia|exact Hocc].
Qed.

(** An occurrence at or after [i] is found, or overlaps one that is. *)
Lemma occurrencesFrom_complete fuel i p :
  length S - i < fuel -> i <= p -> occursAt k S p ->
  exists j, In j (occurrencesFrom fuel k S i) /\ j <= p < j + length k.
Proof.
  revert i. induction fuel as [|fuel IH]; intros i Hfuel Hp Hocc; [lia|].
  assert (Hin : p + length k <= length S).
  { unfold occursAt, slice in Hocc. apply (f_equal (@length N)) in Hocc.
    rewrite length_firstn, length_skipn in Hocc. lia. }
  simpl. destruct (findFrom k S (Datatypes.S (length S) - i) i) as [j|] eqn:E.
  - pose proof (findFrom_some _ _ _ _ _ E) as [Hj Hoccj].
    pose proof (findFrom_first _ _ _ _ _ E) as Hfirst.
    assert (j <= p).
    { destruct (Nat.le_gt_cases j p); [assumption|].
      exfalso. apply (Hfirst p); [lia|exact Hocc]. }
    destruct (Nat.lt_ge_cases p (j + length k)) as [Hlt|Hge].
    + exists j. split; [left; reflexivity|lia].
    + destruct (IH (j + length k)) as (j' & Hin' & Hj'); [lia|exact Hge|exact Hocc|].
      exists j'. split; [right; exact Hin'|exact Hj'].
  - exfalso. apply (findFrom_none _ _ _ _ E p); [lia|exact Hocc].
Qed.

(** Above the length of the text the fuel does not matter. *)
Lemma occurrencesFrom_fuel fuel fuel' i :
  length S - i < fuel -> length S - i < fuel' ->
  occurrencesFrom fuel k S i = occurrencesFrom fuel' k S i.
Proof.
  revert fuel' i. induction fuel as [|fuel IH]; intros fuel' i H1 H2; [lia|].
  destruct fuel' as [|fuel']; [lia|]. simpl.
  destruct (findFrom k S (Datatypes.S (length S) - i) i) as [j|] eqn:E; [|reflexivity].
  apply findFrom_some in E. destruct E as [Hj Hocc].
  assert (Hin : j + length k <= length S)
    by (apply occursAt_inside; [lia|exact Hocc]).
  f_equal. apply IH; lia.
Qed.

(** The scan of [updateDecorations] for a key without syntax
    characters: one span per occurrence, in the order of the text. *)
Lemma whileExec_literal_spans fuel li (acc : list MatchSpan) :
  length S - li < fuel ->
  whileExec fuel (mkRegExp (mkSeq (map RChar k)) li) S
    (fun m (a : list MatchSpan) =>
       Continue (B := Empty_set) (a ++ [mkSpan k (index m) (index m + length k)]))
    acc
  = Returns (Continue
      (acc ++ map (fun j => mkSpan k j (j + length k)) (occurrencesFrom fuel k S li))).
Proof.
  revert li acc. induction fuel as [|fuel IH]; intros li acc Hfuel; [lia|].
  simpl. rewrite exec_literal.
  destruct (findFrom k S (Datatypes.S (length S) - li) li) as [j|] eqn:E.
  - apply findFrom_some in E. destruct E as [Hj Hocc].
    assert (Hin : j + length k <= length S)
    by (apply occursAt_inside; [lia|exact Hocc]).
    rewrite IH by lia. simpl. rewrite <- app_assoc. reflexivity.
  - simpl. rewrite app_nil_r. reflexivity.
Qed.

(** The scan of [provideHover] and [provideDefinition]: it returns at
    the first occurrence the test accepts. *)
Lemma whileExec_literal_find B (hit : nat -> option B) fuel li :
  length S - li < fuel ->
  whileExec fuel (mkRegExp (mkSeq (map RChar k)) li) S
    (fun m (_ : unit) =>
       match hit (index m) with
       | Some b => Return b
       | None => Continue tt
       end)
    tt
  = Returns
      (match find (fun j => match hit j with Some _ => true | None => false end)
                  (occurrencesFrom fuel k S li) with
       | Some j =>
           match hit j with
           | Some b => Return b
           | None => Continue tt
           end
       | None => Continue tt
       end).
Proof.
  revert li. induction fuel as [|fuel IH]; intros li Hfuel; [lia|].
  simpl. rewrite exec_literal.
  destruct (findFrom k S (Datatypes.S (length S) - li) li) as [j|] eqn:E; [|reflexivity].
  apply findFrom_some in E. destruct E as [Hj Hocc].
  assert (Hin : j + length k <= length S)
    by (apply occursAt_inside; [lia|exact Hocc]).
  simpl. destruct (hit j) as [b|] eqn:Eh; simpl; [rewrite Eh; reflexivity|].
  apply IH. lia.
Qed.

End Occurrences.

Lemma whileExec_ext A B text (body body' : MatchResult -> A -> Step A B) :
  (forall m a, body m a = body' m a) ->
  forall fuel R a, whileExec fuel R text body a = whileExec fuel R text body' a.
Proof.
  intros Hext. induction fuel as [|fuel IH]; intros R a; simpl; [reflexivity|].
  destruct (exec R text) as [[m|] R']; [|reflexivity].
  rewrite Hext. destruct (body' m a); [apply IH|reflexivity].
Qed.

Lemma newRegExp_literal k :
  literal k = true -> newRegExp k = Returns (mkRegExp (mkSeq (map RChar k)) 0).
Proof. intros H. unfold newRegExp. rewrite compile_literal by exact H. reflexivity. Qed.

(** For keys without syntax characters [updateDecorations] does what
    the specification asks of findAllSpans: key after key in the order of
    the index, duplicates included, one span for each occurrence found
    left to right, nothing for a key that does not occur. *)
Theorem literal_findAllSpans fuel keys text acc :
  plainKeys keys -> length text < fuel ->
  findAllSpans fuel keys text acc
  = Returns (acc ++ flat_map (fun k => spansOf k text) keys).
Proof.
  intros Hkeys Hfuel. revert acc.
  induction Hkeys as [|k keys [Hlit Hne] _ IH]; intros acc; simpl.
  - rewrite app_nil_r. reflexivity.
  - rewrite newRegExp_literal by exact Hlit. simpl.
    rewrite whileExec_literal_spans by (auto; lia). simpl.
    rewrite IH, <- app_assoc. unfold spansOf, occurrences.
    rewrite (occurrencesFrom_fuel k text Hne fuel (Datatypes.S (length text)) 0)
      by lia.
    reflexivity.
Qed.

(** Then every span is an occurrence of its key, inside the text. *)
Theorem literal_spans_sound fuel keys text :
  plainKeys keys -> length text < fuel ->
  exists spans,
    findAllSpans fuel keys text [] = Returns spans /\
    Forall (fun sp =>
              In (spanKey sp) keys /\
              occursAt (spanKey sp) text (startOffset sp) /\
              endOffset sp = startOffset sp + length (spanKey sp) /\
              endOffset sp <= length text) spans.
Proof.
  intros Hkeys Hfuel. eexists. split; [apply literal_findAllSpans; assumption|].
  simpl. apply Forall_forall. intros sp Hsp.
  apply in_flat_map in Hsp. destruct Hsp as (k & Hk & Hsp).
  unfold spansOf in Hsp. apply in_map_iff in Hsp. destruct Hsp as (j & <- & Hj).
  simpl. unfold plainKeys in Hkeys. rewrite Forall_forall in Hkeys.
  destruct (Hkeys k Hk) as [_ Hne].
  destruct (occurrencesFrom_sound k text Hne (Datatypes.S (length text)) 0) as [Hall _].
  rewrite Forall_forall in Hall. destruct (Hall j Hj) as [Hocc Hin]. auto.
Qed.

Lemma find_pointwise A (f g : A -> bool) l :
  (forall x, f x = g x) -> find f l = find g l.
Proof.
  intros H. induction l as [|a l IH]; simpl; [reflexivity|].
  rewrite H, IH. reflexivity.
Qed.

(** For keys without syntax characters [provideHover] and
    [provideDefinition] find what the specification asks of
    locate-at-position. *)
Theorem literal_locate fuel notes lineText position :
  plainKeys (map key notes) -> length lineText < fuel ->
  locate fuel notes lineText position = Returns (firstHit notes lineText position).
Proof.
  intros Hkeys Hfuel. induction notes as [|n notes IH]; simpl; [reflexivity|].
  inversion Hkeys as [|k ks [Hlit Hne] Hrest]; subst.
  rewrite newRegExp_literal by exact Hlit. simpl.
  pose (hit := fun j =>
          if contains (rangeOn (line position) (key n) j) position
          then Some (n, rangeOn (line position) (key n) j)
          else None).
  rewrite whileExec_ext with
    (body' := fun m (_ : unit) =>
       match hit (index m) with
       | Some b => Return b
       | None => Continue tt
       end).
  - rewrite (whileExec_literal_find (key n) lineText Hne _ hit fuel 0) by lia.
    simpl. unfold occurrences.
    rewrite (occurrencesFrom_fuel (key n) lineText Hne fuel
               (Datatypes.S (length lineText)) 0) by lia.
    rewrite find_pointwise with
      (g := fun j => contains (rangeOn (line position) (key n) j) position)
      by (intros j; unfold hit; destruct (contains _ _); reflexivity).
    destruct (find _ _) as [j|] eqn:Ef.
    + apply find_some in Ef. destruct Ef as [_ Hc]. unfold hit. rewrite Hc. reflexivity.
    + apply IH. exact Hrest.
  - intros m a. unfold hit, rangeOn. destruct (contains _ _); reflexivity.
Qed.

(** Then the entry returned has an occurrence of its key on the line,
    in a range that contains the position. *)
Theorem literal_locate_sound fuel notes lineText position n r :
  plainKeys (map key notes) -> length lineText < fuel ->
  locate fuel notes lineText position = Returns (Some (n, r)) ->
  In n notes /\
  exists j, occursAt (key n) lineText j /\
            r = rangeOn (line position) (key n) j /\
            contains r position = true.
Proof.
  intros Hkeys Hfuel. rewrite literal_locate by assumption.
  intros H. injection H as H. clear Hfuel.
  induction notes as [|n0 notes IH]; simpl in H; [discriminate|].
  inversion Hkeys as [|k ks [Hlit Hne] Hrest]; subst.
  destruct (find _ (occurrences (key n0) lineText)) as [j|] eqn:Ef.
  - injection H as <- <-. apply find_some in Ef. destruct Ef as [Hin Hc].
    split; [left; reflexivity|]. exists j.
    destruct (occurrencesFrom_sound (key n0) lineText Hne
                (Datatypes.S (length lineText)) 0) as [Hall _].
    rewrite Forall_forall in Hall. destruct (Hall j Hin) as [Hocc _]. auto.
  - destruct (IH Hrest H) as [Hin Hj]. split; [right; exact Hin|exact Hj].
Qed.

(** On the line of the position a range contains it when the column is
    between its two ends, both included. *)
Lemma contains_rangeOn k j position :
  contains (rangeOn (line position) k j) position = true <->
  j <= character position <= j + length k.
Proof.
  unfold contains, rangeOn, isBefore. simpl.
  rewrite Nat.ltb_irrefl, Nat.eqb_refl. simpl.
  rewrite andb_true_iff, !negb_true_iff, !Nat.ltb_ge. tauto.
Qed.

Lemma firstHit_spec notes lineText position :
  match firstHit notes lineText position with
  | Some (n, r) =>
      exists before after j,
        notes = before ++ n :: after /\
        (forall n', In n' before -> ~ touches lineText position n') /\
        In j (occurrences (key n) lineText) /\
        j <= character position <= j + length (key n) /\
        r = rangeOn (line position) (key n) j
  | None => forall n, In n notes -> ~ touches lineText position n
  end.
Proof.
  induction notes as [|n0 notes IH]; simpl; [intros n []|].
  destruct (find _ (occurrences (key n0) lineText)) as [j|] eqn:Ef.
  - apply find_some in Ef. destruct Ef as [Hin Hc]. apply contains_rangeOn in Hc.
    exists [], notes, j. repeat split; auto; lia.
  - assert (Hn0 : ~ touches lineText position n0).
    { intros (j & Hin & Hj). apply contains_rangeOn in Hj.
      rewrite (find_none _ _ Ef j Hin) in Hj. discriminate. }
    destruct (firstHit notes lineText position) as [[n r]|].
    + destruct IH as (before & after & j & -> & Hb & Hin & Hj & ->).
      exists (n0 :: before), after, j. repeat split; auto; try lia.
      intros n' [<-|Hn']; auto.
    + intros n [<-|Hn]; auto.
Qed.

(** C7, amended: when no key has a pattern syntax character, on every
    line and at every position [provideHover] and [provideDefinition]
    return the first entry, in the order of the index, that has an
    occurrence on the line, among those found scanning left to right and
    resuming after each occurrence, whose range from its start to its
    start plus the length of the key contains the column, the end
    included; they return none when no entry has such an occurrence. *)
Theorem C7_first_entry_touching_the_position fuel notes lineText position :
  plainKeys (map key notes) -> length lineText < fuel ->
  exists found,
    locate fuel notes lineText position = Returns found /\
    match found with
    | Some (n, r) =>
        exists before after j,
          notes = before ++ n :: after /\
          (forall n', In n' before -> ~ touches lineText position n') /\
          In j (occurrences (key n) lineText) /\
          j <= character position <= j + length (key n) /\
          r = rangeOn (line position) (key n) j
    | None => forall n, In n notes -> ~ touches lineText position n
    end.
Proof.
  intros Hkeys Hfuel. exists (firstHit notes lineText position).
  split; [apply literal_locate; assumption|apply firstHit_spec].
Qed.

Lemma plainKeys_keyNote : plainKeys (map key [keyNote]).
Proof.
  unfold plainKeys. apply Forall_cons; [|apply Forall_nil].
  split; [vm_compute; reflexivity|simpl; lia].
Defined.

Lemma C7_witness :
  exists found,
    locate 20 [keyNote] (js "xx KEY") (mkPosition 0 4) = Returns found /\
    match found with
    | Some (n, r) =>
        exists before after j,
          [keyNote] = before ++ n :: after /\
          (forall n', In n' before -> ~ touches (js "xx KEY") (mkPosition 0 4) n') /\
          In j (occurrences (key n) (js "xx KEY")) /\
          j <= 4 <= j + length (key n) /\
          r = rangeOn 0 (key n) j
    | None => forall n, In n [keyNote] -> ~ touches (js "xx KEY") (mkPosition 0 4) n
    end.
Proof.
  apply (C7_first_entry_touching_the_position 20 [keyNote] (js "xx KEY")
           (mkPosition 0 4) plainKeys_keyNote).
  simpl. lia.
Defined.

(** * Further properties of the sources *)

(** ** The build, file after file *)

Lemma parseNoteFile_acc regex fuel f acc :
  parseNoteFile regex fuel f acc =
  (notes <- parseNoteFile regex fuel f [] ;; Returns (acc ++ notes)).
Proof.
  unfold parseNoteFile. destruct (openTextDocument f) as [text| | |]; try reflexivity.
  simpl. rewrite (@whileExec_append f text fuel (mkRegExp regex 0) acc).
  destruct (whileExec fuel _ text _ []) as [s| | |]; reflexivity.
Qed.

Lemma parseNoteFilesFrom_acc regex fuel ws acc :
  parseNoteFilesFrom regex fuel ws acc =
  (notes <- parseNoteFilesFrom regex fuel ws [] ;; Returns (acc ++ notes)).
Proof.
  revert acc. induction ws as [|f ws IH]; intros acc; simpl.
  - rewrite app_nil_r. reflexivity.
  - rewrite (parseNoteFile_acc regex fuel f acc).
    destruct (parseNoteFile regex fuel f []) as [notes| | |]; try reflexivity.
    simpl. rewrite (IH (acc ++ notes)), (IH notes).
    destruct (parseNoteFilesFrom regex fuel ws []); try reflexivity.
    simpl. rewrite app_assoc. reflexivity.
Qed.

Lemma parseNoteFilesFrom_app regex fuel ws1 ws2 acc :
  parseNoteFilesFrom regex fuel (ws1 ++ ws2) acc =
  (acc' <- parseNoteFilesFrom regex fuel ws1 acc ;;
   parseNoteFilesFrom regex fuel ws2 acc').
Proof.
  revert acc. induction ws1 as [|f ws1 IH]; intros acc; simpl; [reflexivity|].
  destruct (parseNoteFile regex fuel f acc); try reflexivity. simpl. apply IH.
Qed.

(** X1: the files do not influence one another.  The build of two lists
    of files put end to end is the build of the first followed by the
    build of the second: when both return, the entries of the first and
    then those of the second; otherwise the failure of the first that
    fails, in this order. *)
Theorem X1_build_file_after_file strict fuel ws1 ws2 :
  parseNoteFilesOf strict fuel (ws1 ++ ws2) =
  (notes1 <- parseNoteFilesOf strict fuel ws1 ;;
   notes2 <- parseNoteFilesOf strict fuel ws2 ;;
   Returns (notes1 ++ notes2)).
Proof.
  rewrite parseNoteFilesOf_grammar. unfold parseNoteFilesWith.
  rewrite parseNoteFilesFrom_app.
  destruct (parseNoteFilesFrom (grammar strict) fuel ws1 []) as [notes1| | |];
    try reflexivity.
  simpl. apply parseNoteFilesFrom_acc.
Qed.

(** ** Files without a complete marker *)

Lemma markerAt_needs_brackets colon S i :
  (forall j, nth_error S j <> Some LB) \/ (forall j, nth_error S j <> Some RB) ->
  markerAt colon S i = None.
Proof.
  intros H. destruct (markerAt colon S i) as [[[[a b] v0] t]|] eqn:E; [|reflexivity].
  apply markerAt_some in E. destruct E as (_ & _ & HL & HR & _).
  exfalso. destruct H as [H|H]; [exact (H i HL)|exact (H b HR)].
Qed.

Lemma exec_nowhere r text li :
  (forall j, matchAt r text j = None) ->
  exec (mkRegExp r li) text = (None, mkRegExp r 0).
Proof.
  intros H. unfold exec. simpl. rewrite (@search_nowhere r text _ li H).
  destruct (length text <? li); reflexivity.
Qed.

Lemma parseNoteFilesFrom_unmarked strict fuel ws acc :
  0 < fuel ->
  Forall (fun f => exists text, content f = Some text /\ unbracketed text) ws ->
  parseNoteFilesFrom (grammar strict) fuel ws acc = Returns acc.
Proof.
  intros Hfuel Hws. revert acc. induction Hws as [|f ws (text & Hc & Hb) _ IH];
    intros acc; simpl; [reflexivity|].
  unfold parseNoteFile, openTextDocument. rewrite Hc. simpl.
  destruct fuel as [|fuel]; [lia|]. simpl.
  rewrite exec_nowhere.
  - simpl. apply IH.
  - intros j. rewrite matchAt_grammar, markerAt_needs_brackets by exact Hb. reflexivity.
Qed.

(** X2: a note file in which no opening bracket or no closing bracket
    occurs, an empty file or a marker left open for instance, gives no
    entry and no error, after one turn of the loop.  When all files are
    so, the index is empty and [updateDecorations] gives the editor of an
    outline document the empty list, whatever its text. *)
Theorem X2_no_bracket_no_entry strict fuel ws text color :
  0 < fuel ->
  Forall (fun f => exists text, content f = Some text /\ unbracketed text) ws ->
  parseNoteFilesOf strict fuel ws = Returns [] /\
  Strict.updateDecorations fuel ws (outline text) = Returns (Some []) /\
  Tolerant.updateDecorations (Some color) fuel ws (outline text) = Returns (Some []).
Proof.
  intros Hfuel Hws.
  pose proof (parseNoteFilesFrom_unmarked true fuel ws [] Hfuel Hws) as Hs.
  pose proof (parseNoteFilesFrom_unmarked false fuel ws [] Hfuel Hws) as Ht.
  split.
  - rewrite parseNoteFilesOf_grammar. destruct strict; assumption.
  - unfold Strict.updateDecorations, Tolerant.updateDecorations,
      updateDecorationsWith, outline, parseNoteFilesWith. simpl.
    change Strict.regex with (grammar true). change Tolerant.regex with (grammar false).
    rewrite Hs, Ht. split; reflexivity.
Qed.

Lemma unbracketed_halfOpen :
  Forall (fun f => exists text, content f = Some text /\ unbracketed text)
         (oneFile ([LB] ++ js "A" ++ [NL] ++ js "never closed")).
Proof.
  apply Forall_cons; [|apply Forall_nil]. eexists. split; [reflexivity|].
  right. intros j H. apply nth_error_In in H. vm_compute in H.
  repeat (destruct H as [H|H]; [discriminate H|]). exact H.
Defined.

Lemma X2_witness :
  parseNoteFilesOf true 1 (oneFile ([LB] ++ js "A" ++ [NL] ++ js "never closed"))
    = Returns [] /\
  Strict.updateDecorations 1 (oneFile ([LB] ++ js "A" ++ [NL] ++ js "never closed"))
    (outline (js "A")) = Returns (Some []) /\
  Tolerant.updateDecorations (Some "red"%string) 1
    (oneFile ([LB] ++ js "A" ++ [NL] ++ js "never closed"))
    (outline (js "A")) = Returns (Some []).
Proof.
  apply (X2_no_bracket_no_entry true 1 _ (js "A") "red"%string);
    [lia|exact unbracketed_halfOpen].
Defined.

(** ** What keys and values are made of *)

Lemma slice_nth_error text a b k x :
  nth_error (slice text a b) k = Some x ->
  a + k < b /\ nth_error text (a + k) = Some x.
Proof.
  unfold slice. rewrite nth_error_firstn.
  destruct (k <? b - a) eqn:E; [|discriminate].
  apply Nat.ltb_lt in E. rewrite nth_error_skipn. intros H. split; [lia|exact H].
Qed.

Lemma trimStart_suffix s : exists a, s = a ++ trimStart s.
Proof.
  induction s as [|c s (a & IH)]; simpl; [exists []; reflexivity|].
  destruct (isSpace c); [|exists []; reflexivity].
  exists (c :: a). simpl. f_equal. exact IH.
Qed.

Lemma trimEnd_prefix s : exists b, s = trimEnd s ++ b.
Proof.
  unfold trimEnd. destruct (trimStart_suffix (rev s)) as (a & Ha).
  exists (rev a). rewrite <- rev_app_distr, <- Ha, rev_involutive. reflexivity.
Qed.

(** What [trim] returns stands in one piece inside its argument. *)
Lemma trim_infix s : exists a b, s = a ++ trim s ++ b.
Proof.
  destruct (trimStart_suffix s) as (a & Ha).
  destruct (trimEnd_prefix (trimStart s)) as (b & Hb).
  exists a, b. unfold trim. rewrite <- Hb. exact Ha.
Qed.

Lemma nth_error_middle {A} (pre post : list A) x :
  nth_error (pre ++ x :: post) (length pre) = Some x.
Proof. induction pre as [|a pre IH]; simpl; [reflexivity|exact IH]. Qed.

(** X3: no key holds a closing bracket, and no value holds a line feed
    with an opening bracket after it: an entry never swallows the end of
    its own marker or the first line of the next one. *)
Theorem X3_keys_and_values_stop_at_brackets strict fuel ws notes n :
  parseNoteFilesOf strict fuel ws = Returns notes -> In n notes ->
  ~ In RB (key n) /\
  ~ (exists before after, value n = before ++ NL :: LB :: after).
Proof.
  intros H Hn. rewrite parseNoteFilesOf_grammar in H.
  assert (Ho : Origin (grammar strict) ws n)
    by (eapply parseNoteFiles_origin; eassumption).
  apply origin_captured in Ho.
  destruct Ho as (f & text & _ & _ & _ & i & q & _ & _ & _ & Hrun & _ & Hcap).
  cbv zeta in Hcap. destruct Hcap as (Hk & Hv & Hr & _ & Hfirst).
  split.
  - intros Hin. rewrite Hk in Hin.
    destruct (trim_infix (slice text (i + 1) q)) as (a & b & Hs).
    assert (Hin' : In RB (slice text (i + 1) q))
      by (rewrite Hs; apply in_or_app; right; apply in_or_app; left; exact Hin).
    apply In_nth_error in Hin'. destruct Hin' as (k & Hnth).
    apply slice_nth_error in Hnth. destruct Hnth as [Hlt Hnth].
    apply (Hrun (i + 1 + k)); [lia|exact Hnth].
  - intros (before & after & Hval).
    set (v0 := if strict then q + 2 else q + 1) in *.
    destruct (trim_infix (slice text v0 (valueEnd text v0))) as (a & b & Hs).
    rewrite <- Hv, Hval in Hs.
    assert (E1 : a ++ (before ++ NL :: LB :: after) ++ b
                 = (a ++ before) ++ NL :: (LB :: after ++ b))
      by (repeat rewrite <- app_assoc; reflexivity).
    assert (E2 : a ++ (before ++ NL :: LB :: after) ++ b
                 = ((a ++ before) ++ [NL]) ++ LB :: (after ++ b))
      by (repeat rewrite <- app_assoc; reflexivity).
    assert (Hnl : nth_error (slice text v0 (valueEnd text v0)) (length (a ++ before))
                  = Some NL)
      by (rewrite Hs, E1; apply nth_error_middle).
    assert (Hlb : nth_error (slice text v0 (valueEnd text v0))
                    (length ((a ++ before) ++ [NL])) = Some LB)
      by (rewrite Hs, E2; apply nth_error_middle).
    apply slice_nth_error in Hnl. apply slice_nth_error in Hlb.
    destruct Hnl as [Hlt Hnl]. destruct Hlb as [_ Hlb].
    rewrite length_app in Hlb. simpl in Hlb.
    assert (Hb : boundaryAt text (v0 + length (a ++ before)) = true).
    { unfold boundaryAt. rewrite Hnl.
      replace (v0 + length (a ++ before) + 1)
        with (v0 + (length (a ++ before) + 1)) by lia.
      rewrite Hlb, !N.eqb_refl. reflexivity. }
    rewrite Hfirst in Hb by lia. discriminate.
Qed.

Lemma X3_witness :
  ~ In RB (key noteA) /\
  ~ (exists before after, value noteA = before ++ NL :: LB :: after).
Proof.
  apply (X3_keys_and_values_stop_at_brackets false 30 (oneFile multiLine)
           [noteA; mkNote (js "B") (js "line3") "notes.des" (wholeLine 2 8)] noteA);
    [vm_compute; reflexivity|left; reflexivity].
Defined.

(** ** One line for each entry *)

Lemma positionFrom_line_ge s offset ln col :
  ln <= line (positionFrom s offset ln col).
Proof.
  revert offset ln col. induction s as [|c s IH]; intros [|offset] ln col; simpl; auto.
  destruct (N.eqb c NL); [eapply Nat.le_trans; [|apply IH]; lia|].
  destruct (N.eqb c CR); [|apply IH].
  destruct s as [|d s']; [eapply Nat.le_trans; [|apply IH]; lia|].
  destruct (N.eqb d NL); [apply IH|eapply Nat.le_trans; [|apply IH]; lia].
Qed.

Lemma positionFrom_mono s a b ln col :
  a <= b -> line (positionFrom s a ln col) <= line (positionFrom s b ln col).
Proof.
  revert a b ln col. induction s as [|c s IH]; intros a b ln col Hab.
  - destruct a, b; simpl; auto.
  - destruct a as [|a].
    + apply (positionFrom_line_ge (c :: s) b ln col).
    + destruct b as [|b]; [lia|]. assert (a <= b) by lia. simpl.
      destruct (N.eqb c NL); [apply IH; assumption|].
      destruct (N.eqb c CR); [|apply IH; assumption].
      destruct s as [|d s']; [apply IH; assumption|].
      destruct (N.eqb d NL); apply IH; assumption.
Qed.

(** The offset after a line feed is on the next line. *)
Lemma positionFrom_after_NL s t ln col :
  nth_error s t = Some NL ->
  line (positionFrom s (S t) ln col) = S (line (positionFrom s t ln col)).
Proof.
  revert t ln col. induction s as [|c s IH]; intros t ln col H.
  - destruct t; discriminate H.
  - destruct t as [|t].
    + change (Some c = Some NL) in H. injection H as ->. simpl.
      destruct s; reflexivity.
    + change (nth_error s t = Some NL) in H.
      change (positionFrom (c :: s) (S (S t)) ln col)
        with (if N.eqb c NL then positionFrom s (S t) (S ln) 0
              else if N.eqb c CR then
                match s with
                | d :: _ => if N.eqb d NL then positionFrom s (S t) ln col
                            else positionFrom s (S t) (S ln) 0
                | [] => positionFrom s (S t) (S ln) 0
                end
              else positionFrom s (S t) ln (S col)).
      change (positionFrom (c :: s) (S t) ln col)
        with (if N.eqb c NL then positionFrom s t (S ln) 0
              else if N.eqb c CR then
                match s with
                | d :: _ => if N.eqb d NL then positionFrom s t ln col
                            else positionFrom s t (S ln) 0
                | [] => positionFrom s t (S ln) 0
                end
              else positionFrom s t ln (S col)).
      destruct (N.eqb c NL); [apply IH; exact H|].
      destruct (N.eqb c CR); [|apply IH; exact H].
      destruct s as [|d s']; [apply IH; exact H|].
      destruct (N.eqb d NL); apply IH; exact H.
Qed.

(** A marker found after the end of a match is on a later line than the
    marker of the match. *)
Lemma later_marker_later_line text i t i' :
  i <= t -> boundaryAt text t = true -> t <= i' ->
  nth_error text i' = Some LB ->
  line (positionAt text i) < line (positionAt text i').
Proof.
  intros Hit Hb Hti Hlb. unfold boundaryAt in Hb.
  assert (Hi' : i' < length text) by (apply nth_error_Some; congruence).
  destruct (nth_error text t) as [a|] eqn:Et.
  - apply andb_true_iff in Hb. destruct Hb as [Ha _]. apply N.eqb_eq in Ha. subst a.
    assert (i' <> t) by (intros ->; rewrite Et in Hlb; discriminate Hlb).
    unfold positionAt.
    pose proof (positionFrom_mono text i t 0 0 Hit).
    pose proof (positionFrom_after_NL text t 0 0 Et).
    pose proof (positionFrom_mono text (S t) i' 0 0 ltac:(lia)).
    lia.
  - apply Nat.eqb_eq in Hb. lia.
Qed.

Lemma whileExec_lines strict u text fuel li acc acc' :
  whileExec fuel (mkRegExp (grammar strict) li) text (noteOfMatch u text) acc
    = Returns (Continue acc') ->
  exists extra,
    acc' = acc ++ extra /\
    increasing (map defLine extra) /\
    Forall (fun n => exists i, li <= i /\ nth_error text i = Some LB /\
                               defLine n = line (positionAt text i)) extra.
Proof.
  revert li acc. induction fuel as [|fuel IH]; intros li acc; simpl; [discriminate|].
  destruct (exec (mkRegExp (grammar strict) li) text) as [[m|] R'] eqn:E.
  - apply exec_some in E. simpl in E.
    destruct E as (-> & Hli & _ & Hm & _).
    rewrite matchAt_grammar in Hm.
    destruct (markerAt strict text (index m)) as [[[[a b] v0] t]|] eqn:Emk;
      [|discriminate].
    simpl in Hm. injection Hm as Hend _.
    apply markerAt_some in Emk.
    destruct Emk as (-> & Hab & Hlb & _ & _ & _ & Hv0 & Hv0len & ->).
    destruct (valueEnd_spec text Hv0len) as (Hr & Hb & _).
    assert (Hit : index m <= matchEnd m) by (destruct strict; lia).
    rewrite Hend in Hb.
    assert (Hrest : forall acc0,
      whileExec fuel (mkRegExp (grammar strict) (matchEnd m)) text
        (noteOfMatch u text) acc0 = Returns (Continue acc') ->
      exists extra,
        acc' = acc0 ++ extra /\ increasing (map defLine extra) /\
        Forall (fun n => exists i, li <= i /\ nth_error text i = Some LB /\
                                   defLine n = line (positionAt text i)) extra /\
        Forall (lt (line (positionAt text (index m)))) (map defLine extra)).
    { intros acc0 H. apply IH in H. destruct H as (extra & -> & Hinc & Hall).
      exists extra. split; [reflexivity|]. split; [exact Hinc|]. split.
      - eapply Forall_impl; [|exact Hall]. intros n (i & Hi & Hn). exists i.
        split; [lia|exact Hn].
      - apply Forall_map. eapply Forall_impl; [|exact Hall].
        intros n (i & Hi & Hlbi & ->).
        eapply later_marker_later_line; eassumption. }
    unfold noteOfMatch at 1.
    destruct (truthy _ && truthy _).
    + intros H. apply Hrest in H. destruct H as (extra & -> & Hinc & Hall & Hlt).
      eexists (_ :: extra). split; [rewrite <- app_assoc; reflexivity|].
      split; [simpl; split; [exact Hlt|exact Hinc]|].
      constructor; [|exact Hall]. exists (index m). auto.
    + intros H. apply Hrest in H. destruct H as (extra & -> & Hinc & Hall & _).
      exists extra. auto.
  - intros H. injection H as <-. exists []. rewrite app_nil_r. simpl. auto.
Qed.

(** X4: the entries of one file come in the order of their markers and
    no two of them share a line: the lines of their ranges, where
    definition lookup jumps, strictly increase along the list. *)
Theorem X4_one_line_for_each_entry strict fuel f notes :
  parseNoteFilesOf strict fuel [f] = Returns notes ->
  increasing (map defLine notes) /\ Forall (fun n => uri n = fileUri f) notes.
Proof.
  rewrite parseNoteFilesOf_grammar. unfold parseNoteFilesWith. simpl.
  unfold parseNoteFile, openTextDocument.
  destruct (content f) as [text|]; [|discriminate]. simpl.
  destruct (whileExec fuel _ text _ []) as [[acc'|[]]| | |] eqn:E; try discriminate.
  simpl. intros H. injection H as <-.
  pose proof E as E'. apply whileExec_lines in E.
  destruct E as (extra & -> & Hinc & _). split; [exact Hinc|].
  refine (@whileExec_invariant _ _ text _ (Forall (fun n => uri n = fileUri f))
            (grammar strict) fuel 0 [] _ _ (Forall_nil _) E').
  intros R m R' a a' _ _ Ha. unfold noteOfMatch.
  destruct (truthy _ && truthy _); intros Hb; injection Hb as <-; [|exact Ha].
  apply Forall_app. split; [exact Ha|]. constructor; [reflexivity|constructor].
Qed.

Lemma X4_witness :
  increasing (map defLine
    [noteA; mkNote (js "B") (js "line3") "notes.des" (wholeLine 2 8)]) /\
  Forall (fun n => uri n = fileUri (mkFile "notes.des" (Some multiLine)))
    [noteA; mkNote (js "B") (js "line3") "notes.des" (wholeLine 2 8)].
Proof.
  apply (X4_one_line_for_each_entry false 30 (mkFile "notes.des" (Some multiLine))).
  vm_compute. reflexivity.
Defined.

(** ** The scans of keys used as patterns *)

(** A match that ends where it starts is found again by the next call of
    [exec]. *)
Lemma exec_again r li text m R' :
  exec (mkRegExp r li) text = (Some m, R') -> matchEnd m = index m ->
  R' = mkRegExp r (index m) /\ exec R' text = (Some m, R').
Proof.
  intros He Hempty. apply exec_some in He. simpl in He.
  destruct He as (-> & _ & Hb & Hm & _). rewrite Hempty. split; [reflexivity|].
  unfold exec. simpl.
  replace (length text <? index m) with false by (symmetry; apply Nat.ltb_ge; lia).
  replace (Datatypes.S (length text) - index m)
    with (Datatypes.S (length text - index m)) by lia.
  simpl. rewrite Hm. destruct m as [i e g]; simpl in *. subst e. reflexivity.
Qed.

(** A loop that ends has met no empty match, and has gone through the
    matches of the pattern from left to right. *)
Lemma whileExec_matches r k text fuel li acc acc' :
  whileExec fuel (mkRegExp r li) text
    (fun m (a : list MatchSpan) =>
       Continue (B := Empty_set) (a ++ [mkSpan k (index m) (index m + length k)]))
    acc = Returns (Continue acc') ->
  exists g,
    acc' = acc ++ g /\
    Forall (fun sp => spanKey sp = k) g /\
    matchesFrom r text li (map startOffset g).
Proof.
  revert li acc. induction fuel as [|fuel IH]; intros li acc; simpl; [discriminate|].
  destruct (exec (mkRegExp r li) text) as [[m|] R'] eqn:E.
  - intros H.
    pose proof (exec_some _ _ E) as (HR & Hli & Hb & Hm & Hfirst). simpl in *.
    assert (Hlt : index m < matchEnd m).
    { destruct (Nat.eq_dec (matchEnd m) (index m)) as [He|]; [|lia].
      exfalso. destruct (exec_again r li text m R' E He) as [-> Hagain].
      rewrite whileExec_stuck with (m := m) in H; [discriminate|exact Hagain|].
      intros a. eexists. reflexivity. }
    subst R'. apply IH in H. destruct H as (g & -> & Hk & Hg).
    exists (mkSpan k (index m) (index m + length k) :: g).
    split; [rewrite <- app_assoc; reflexivity|].
    split; [constructor; [reflexivity|exact Hk]|].
    simpl. split; [exact Hli|]. split; [exact Hfirst|].
    eexists. split; [exact Hm|]. simpl. split; [lia|exact Hg].
  - intros H. injection H as <-. exists []. rewrite app_nil_r.
    split; [reflexivity|]. split; [constructor|].
    simpl. apply exec_none in E. destruct E as (_ & Hn). exact Hn.
Qed.

(** X5: take keys that are patterns of the fragment, literal or not.
    When the scan of [updateDecorations] returns, its spans come key
    after key in the order of the index, one group for each entry,
    duplicates included.  The spans of a key start where the matches of
    its pattern do, read from left to right: each match is the leftmost
    one at or after the end of the match before it, no match is empty,
    so that the starts strictly increase and lie inside the text, and
    after the last match the pattern matches nowhere. *)
Theorem X5_spans_grouped_by_key fuel keys text spans :
  findAllSpans fuel keys text [] = Returns spans ->
  exists groups,
    spans = concat groups /\
    Forall2 (groupOf text) keys groups.
Proof.
  enough (Hgen : forall acc,
    findAllSpans fuel keys text acc = Returns spans ->
    exists groups,
      spans = acc ++ concat groups /\
      Forall2 (groupOf text) keys groups)
    by (intros H; apply Hgen in H; exact H).
  revert spans. induction keys as [|k keys IH]; intros spans acc; simpl.
  - intros H. injection H as <-. exists []. rewrite app_nil_r. auto.
  - unfold newRegExp. destruct (compile k) as [r| |] eqn:Ec; simpl; try discriminate.
    destruct (whileExec fuel _ text _ acc) as [[acc'|[]]| | |] eqn:E; simpl;
      try discriminate.
    intros H. apply IH in H. destruct H as (groups & -> & Hall).
    apply whileExec_matches in E. destruct E as (g & -> & Hk & Hg).
    exists (g :: groups). split; [simpl; rewrite app_assoc; reflexivity|].
    constructor; [|exact Hall]. exists r. auto.
Qed.

Lemma X5_witness :
  exists groups,
    [mkSpan (js "a+") 0 2] = concat groups /\
    Forall2 (groupOf (js "aaa")) [js "a+"; js "b"] groups.
Proof.
  apply (X5_spans_grouped_by_key 10 [js "a+"; js "b"] (js "aaa")).
  vm_compute. reflexivity.
Defined.

Lemma consuming_newRegExp k :
  consuming k -> exists r, newRegExp k = Returns (mkRegExp r 0) /\ 0 < minLen r.
Proof.
  intros (r & Hc & Hmin). exists r. unfold newRegExp. rewrite Hc. auto.
Qed.

Lemma findAllSpans_consuming fuel keys text acc :
  Forall consuming keys -> length text < fuel ->
  exists spans, findAllSpans fuel keys text acc = Returns spans.
Proof.
  intros Hkeys Hfuel. revert acc.
  induction Hkeys as [|k keys Hk _ IH]; intros acc; simpl; [eauto|].
  destruct (consuming_newRegExp k Hk) as (r & -> & Hmin). simpl.
  destruct (@whileExec_terminates _ Empty_set text
              (fun m (a : list MatchSpan) =>
                 Continue (a ++ [mkSpan k (index m) (index m + length k)]))
              fuel (mkRegExp r 0) acc) as (s & ->); [exact Hmin|simpl; lia|].
  simpl. apply IH.
Qed.

Lemma locate_consuming fuel notes lineText position :
  Forall consuming (map key notes) -> length lineText < fuel ->
  exists found, locate fuel notes lineText position = Returns found.
Proof.
  intros Hkeys Hfuel. induction notes as [|n notes IH]; simpl; [eauto|].
  inversion Hkeys as [|k ks Hk Hrest]; subst.
  destruct (consuming_newRegExp (key n) Hk) as (r & -> & Hmin). simpl.
  match goal with
  | |- context [whileExec fuel ?R lineText ?body tt] =>
      destruct (@whileExec_terminates _ _ lineText body fuel R tt) as (s & ->);
        [exact Hmin|simpl; lia|]
  end.
  simpl. destruct s; [apply IH; exact Hrest|eauto].
Qed.

(** X6: when every key is a pattern that cannot match the empty string,
    [a.b] or [x+] as well as the keys without syntax characters, the
    scan of [updateDecorations] and the lookup of [provideHover] and
    [provideDefinition] return within as many turns per key as the text
    is long plus one: they neither hang nor throw. *)
Theorem X6_consuming_keys_return fuel notes text position :
  Forall consuming (map key notes) -> length text < fuel ->
  (exists spans, findAllSpans fuel (map key notes) text [] = Returns spans) /\
  (exists found, locate fuel notes text position = Returns found).
Proof.
  intros Hkeys Hfuel. split.
  - apply findAllSpans_consuming; assumption.
  - apply locate_consuming; assumption.
Qed.

Lemma consuming_dotNote : Forall consuming (map key [dotNote]).
Proof.
  apply Forall_cons; [|apply Forall_nil]. eexists. split; [vm_compute; reflexivity|].
  simpl. lia.
Defined.

Lemma X6_witness :
  (exists spans, findAllSpans 10 (map key [dotNote]) (js "axb a.b") [] = Returns spans) /\
  (exists found, locate 10 [dotNote] (js "axb a.b") (mkPosition 0 5) = Returns found).
Proof.
  apply (X6_consuming_keys_return 10 [dotNote] (js "axb a.b") (mkPosition 0 5)
           consuming_dotNote).
  simpl. lia.
Defined.

(** X7: a key that is no pattern, such as [C++], makes [new RegExp]
    throw when its turn comes; the spans found for the keys before it are
    dropped with the array and the keys after it are never tried, so one
    such entry takes the highlighting of every key away. *)
Theorem X7_bad_key_rejects_all_spans fuel good bad rest text :
  Forall consuming good -> compile bad = BadPattern -> length text < fuel ->
  findAllSpans fuel (good ++ bad :: rest) text [] = Throws SyntaxError.
Proof.
  intros Hgood Hbad Hfuel. generalize (@nil MatchSpan).
  induction Hgood as [|k good Hk _ IH]; intros acc; simpl.
  - unfold newRegExp. rewrite Hbad. reflexivity.
  - destruct (consuming_newRegExp k Hk) as (r & -> & Hmin). simpl.
    destruct (@whileExec_terminates _ Empty_set text
                (fun m (a : list MatchSpan) =>
                   Continue (a ++ [mkSpan k (index m) (index m + length k)]))
                fuel (mkRegExp r 0) acc) as (s & ->); [exact Hmin|simpl; lia|].
    simpl. apply IH.
Qed.

Lemma consuming_KEY : Forall consuming [js "KEY"].
Proof.
  apply Forall_cons; [|apply Forall_nil]. eexists. split; [vm_compute; reflexivity|].
  simpl. lia.
Defined.

Lemma X7_witness :
  findAllSpans 10 ([js "KEY"] ++ js "C++" :: [js "other"]) (js "KEY C++") []
    = Throws SyntaxError.
Proof.
  apply (X7_bad_key_rejects_all_spans 10 [js "KEY"] (js "C++") [js "other"]
           (js "KEY C++") consuming_KEY); [vm_compute; reflexivity|simpl; lia].
Defined.

(** X8: a key whose pattern first matches the empty string, [s?] or
    [x|] for instance, stops the scan of [updateDecorations] for good:
    [exec] returns that match again and again and the loop pushes the
    same span for ever; the lookup of [provideHover] and
    [provideDefinition] hangs in the same way unless the range at that
    match contains the position. *)
Theorem X8_empty_first_match_hangs k r text m R' :
  compile k = Pattern r ->
  exec (mkRegExp r 0) text = (Some m, R') -> matchEnd m = index m ->
  (forall fuel rest acc, findAllSpans fuel (k :: rest) text acc = Running) /\
  (forall fuel note rest position,
      key note = k ->
      contains (rangeOn (line position) k (index m)) position = false ->
      locate fuel (note :: rest) text position = Running).
Proof.
  intros Hc He Hempty. destruct (exec_again r 0 text m R' He Hempty) as [-> Hagain].
  split.
  - intros fuel rest acc. simpl. unfold newRegExp. rewrite Hc. simpl.
    destruct fuel as [|fuel]; [reflexivity|]. simpl. rewrite He.
    rewrite whileExec_stuck with (m := m); [reflexivity|exact Hagain|].
    intros a. eexists. reflexivity.
  - intros fuel note rest position Hk Hout. simpl. rewrite Hk. unfold newRegExp.
    rewrite Hc. simpl. unfold rangeOn in Hout.
    destruct fuel as [|fuel]; [reflexivity|]. simpl. rewrite He, Hout.
    rewrite whileExec_stuck with (m := m); [reflexivity|exact Hagain|].
    intros a. rewrite Hout. eexists. reflexivity.
Qed.

Lemma X8_witness :
  (forall fuel rest acc, findAllSpans fuel (js "s?" :: rest) (js "notes") acc = Running) /\
  (forall fuel note rest position,
      key note = js "s?" ->
      contains (rangeOn (line position) (js "s?") (index (mkResult 0 0 []))) position
        = false ->
      locate fuel (note :: rest) (js "notes") position = Running).
Proof.
  apply (X8_empty_first_match_hangs (js "s?") (RQuant true 0 (Some 1) (RChar 115))
           (js "notes") (mkResult 0 0 [])
           (mkRegExp (RQuant true 0 (Some 1) (RChar 115)) 0));
    vm_compute; reflexivity.
Defined.

(** ** Hover and definition lookup *)

Lemma locate_plain_step fuel n rest lineText position :
  literal (key n) = true -> 0 < length (key n) -> length lineText < fuel ->
  locate fuel (n :: rest) lineText position =
  match find (fun j => contains (rangeOn (line position) (key n) j) position)
             (occurrences (key n) lineText) with
  | Some j => Returns (Some (n, rangeOn (line position) (key n) j))
  | None => locate fuel rest lineText position
  end.
Proof.
  intros Hlit Hne Hfuel. simpl. rewrite newRegExp_literal by exact Hlit. simpl.
  pose (hit := fun j =>
          if contains (rangeOn (line position) (key n) j) position
          then Some (n, rangeOn (line position) (key n) j)
          else None).
  rewrite whileExec_ext with
    (body' := fun m (_ : unit) =>
       match hit (index m) with
       | Some b => Return b
       | None => Continue tt
       end).
  - rewrite (whileExec_literal_find (key n) lineText Hne _ hit fuel 0) by lia.
    simpl. unfold occurrences.
    rewrite (occurrencesFrom_fuel (key n) lineText Hne fuel
               (Datatypes.S (length lineText)) 0) by lia.
    rewrite find_pointwise with
      (g := fun j => contains (rangeOn (line position) (key n) j) position)
      by (intros j; unfold hit; destruct (contains _ _); reflexivity).
    destruct (find _ _) as [j|] eqn:Ef; [|reflexivity].
    apply find_some in Ef. destruct Ef as [_ Hc]. unfold hit. rewrite Hc. reflexivity.
  - intros m a. unfold hit, rangeOn. destruct (contains _ _); reflexivity.
Qed.

Lemma find_touching lineText position n :
  touches lineText position n ->
  exists j, find (fun j => contains (rangeOn (line position) (key n) j) position)
                 (occurrences (key n) lineText) = Some j.
Proof.
  intros (j & Hin & Hj).
  destruct (find _ (occurrences (key n) lineText)) as [j'|] eqn:Ef; [eauto|].
  apply contains_rangeOn in Hj. rewrite (find_none _ _ Ef j Hin) in Hj. discriminate.
Qed.

Lemma find_not_touching lineText position n :
  ~ touches lineText position n ->
  find (fun j => contains (rangeOn (line position) (key n) j) position)
       (occurrences (key n) lineText) = None.
Proof.
  intros Hn. destruct (find _ (occurrences (key n) lineText)) as [j|] eqn:Ef;
    [|reflexivity].
  apply find_some in Ef. destruct Ef as [Hin Hc]. apply contains_rangeOn in Hc.
  exfalso. apply Hn. exists j. auto.
Qed.

(** X10: the lookup stops at the first entry that answers.  When an
    entry with a key without syntax characters has an occurrence at the
    position and the entries before it, with such keys too, have none,
    [provideHover] and [provideDefinition] answer with that entry
    whatever comes after it in the index: a later key that is no pattern
    or that would hang the scan is never compiled. *)
Theorem X10_first_answer_hides_later_keys fuel before n rest lineText position :
  plainKeys (map key before) ->
  Forall (fun n' => ~ touches lineText position n') before ->
  literal (key n) = true -> 0 < length (key n) ->
  touches lineText position n ->
  length lineText < fuel ->
  exists j,
    locate fuel (before ++ n :: rest) lineText position
      = Returns (Some (n, rangeOn (line position) (key n) j)) /\
    j <= character position <= j + length (key n).
Proof.
  intros Hkeys Hnot Hlit Hne Htouch Hfuel.
  induction before as [|n0 before IH].
  - simpl app. rewrite locate_plain_step by assumption.
    destruct (find_touching lineText position n Htouch) as (j & Ef). rewrite Ef.
    exists j. split; [reflexivity|].
    apply find_some in Ef. destruct Ef as [_ Hc]. apply contains_rangeOn. exact Hc.
  - inversion Hkeys as [|k ks [Hlit0 Hne0] Hrest]; subst.
    inversion Hnot as [|n' ns Hn0 Hnrest]; subst.
    change ((n0 :: before) ++ n :: rest) with (n0 :: (before ++ n :: rest)).
    rewrite locate_plain_step by assumption.
    rewrite (find_not_touching lineText position n0 Hn0).
    apply IH; assumption.
Qed.

Lemma touches_keyNote : touches (js "xx KEY") (mkPosition 0 4) keyNote.
Proof. exists 3. split; [vm_compute; left; reflexivity|simpl; lia]. Defined.

Lemma X10_witness :
  exists j,
    locate 20 ([] ++ keyNote :: [starNote; mkNote (js "C++") (js "v") "notes.des"
                                              (wholeLine 1 6)])
      (js "xx KEY") (mkPosition 0 4)
      = Returns (Some (keyNote, rangeOn 0 (key keyNote) j)) /\
    j <= 4 <= j + length (key keyNote).
Proof.
  apply (X10_first_answer_hides_later_keys 20 [] keyNote
           [starNote; mkNote (js "C++") (js "v") "notes.des" (wholeLine 1 6)]
           (js "xx KEY") (mkPosition 0 4));
    [apply Forall_nil|apply Forall_nil|vm_compute; reflexivity|simpl; lia
    |exact touches_keyNote|simpl; lia].
Defined.

(** X11: past the end of the line there is nothing to find.  For keys
    without syntax characters a position whose column is greater than the
    length of the line, on an empty line any column but the first, is
    answered with none. *)
Theorem X11_no_answer_past_the_line fuel notes lineText position :
  plainKeys (map key notes) -> length lineText < fuel ->
  length lineText < character position ->
  locate fuel notes lineText position = Returns None.
Proof.
  intros Hkeys Hfuel Hcol. induction notes as [|n notes IH]; [reflexivity|].
  inversion Hkeys as [|k ks [Hlit Hne] Hrest]; subst.
  rewrite locate_plain_step by assumption.
  rewrite find_not_touching; [apply IH; exact Hrest|].
  intros (j & Hin & Hj).
  destruct (occurrencesFrom_sound (key n) lineText Hne
              (Datatypes.S (length lineText)) 0) as [Hall _].
  rewrite Forall_forall in Hall. destruct (Hall j Hin) as [_ Hinside]. lia.
Qed.

Lemma X11_witness :
  locate 20 [keyNote] (js "xx KEY") (mkPosition 0 7) = Returns None.
Proof.
  apply (X11_no_answer_past_the_line 20 [keyNote] (js "xx KEY") (mkPosition 0 7)
           plainKeys_keyNote); simpl; lia.
Defined.

(** ** The highlights of one key *)

(** X12: for a key without syntax characters the spans of
    [updateDecorations] are occurrences of the key inside the text, they
    come left to right and do not overlap, and every occurrence of the
    key in the text is one of them or overlaps one of them. *)
Theorem X12_highlights_cover_without_overlap fuel k text :
  literal k = true -> 0 < length k -> length text < fuel ->
  exists starts,
    findAllSpans fuel [k] text [] = Returns (map (fun j => mkSpan k j (j + length k)) starts) /\
    apart (length k) 0 starts /\
    Forall (fun j => occursAt k text j /\ j + length k <= length text) starts /\
    (forall p, occursAt k text p ->
               exists j, In j starts /\ j <= p < j + length k).
Proof.
  intros Hlit Hne Hfuel. exists (occurrences k text).
  destruct (occurrencesFrom_sound k text Hne (Datatypes.S (length text)) 0)
    as [Hall Hapart].
  split; [|split; [exact Hapart|split; [exact Hall|]]].
  - rewrite literal_findAllSpans; [|constructor; [auto|constructor]|exact Hfuel].
    simpl. rewrite app_nil_r. reflexivity.
  - intros p Hocc. apply occurrencesFrom_complete; [exact Hne|lia|lia|exact Hocc].
Qed.

Lemma X12_witness :
  exists starts,
    findAllSpans 20 [js "aa"] (js "aaaaa") []
      = Returns (map (fun j => mkSpan (js "aa") j (j + length (js "aa"))) starts) /\
    apart (length (js "aa")) 0 starts /\
    Forall (fun j => occursAt (js "aa") (js "aaaaa") j /\
                     j + length (js "aa") <= length (js "aaaaa")) starts /\
    (forall p, occursAt (js "aa") (js "aaaaa") p ->
               exists j, In j starts /\ j <= p < j + length (js "aa")).
Proof.
  apply (X12_highlights_cover_without_overlap 20 (js "aa") (js "aaaaa"));
    [vm_compute; reflexivity|simpl; lia|simpl; lia].
Defined.

(** ** The decoration type of the second source *)

(** X13: from activation on, through any sequence of editor changes,
    saves and configuration changes, the second source holds a
    decoration type, so the guard of [updateDecorations] lets it pass,
    and that type is the only one alive: each change of colour disposes
    the type it replaces, and [deactivate] disposes the last. *)
Theorem X13_one_decoration_type_alive configured events :
  let st := fold_left Lifecycle.handle events (Lifecycle.activate configured) in
  exists d color,
    Lifecycle.current st = Some (d, color) /\
    Lifecycle.live st = [d] /\
    Lifecycle.live (Lifecycle.deactivate st) = [].
Proof.
  assert (Hremove : forall d, Lifecycle.dispose d [d] = []).
  { intros d. unfold Lifecycle.dispose. simpl.
    destruct (Nat.eq_dec d d); [reflexivity|contradiction]. }
  assert (Hkeep : forall st d color,
    Lifecycle.current st = Some (d, color) -> Lifecycle.live st = [d] ->
    forall evs, exists d' color',
      Lifecycle.current (fold_left Lifecycle.handle evs st) = Some (d', color') /\
      Lifecycle.live (fold_left Lifecycle.handle evs st) = [d']).
  { intros st d color Hc Hl evs. revert st d color Hc Hl.
    induction evs as [|e evs IH]; intros st d color Hc Hl; simpl; [eauto|].
    destruct e as [| |[|] cfg]; simpl; try (eapply IH; eassumption).
    eapply IH.
    - reflexivity.
    - unfold Lifecycle.createOrUpdateDecorationType. simpl.
      rewrite Hc, Hl, Hremove. reflexivity. }
  intros st.
  destruct (Hkeep (Lifecycle.activate configured) 0
              (match configured with Some c => c | None => Tolerant.defaultColor end)
              eq_refl eq_refl events) as (d & color & Hc & Hl).
  exists d, color. fold st in Hc, Hl. split; [exact Hc|]. split; [exact Hl|].
  unfold Lifecycle.deactivate. rewrite Hc. simpl. rewrite Hl. apply Hremove.
Qed.

(** ** Highlight and hover together *)

(** X14: on a text that is one line, for keys without syntax
    characters, the lookup answers exactly where a highlight is: there is
    a span of [updateDecorations] with the column between its start and
    its end, both included, if and only if [provideHover] and
    [provideDefinition] find an entry at that column. *)
Theorem X14_hover_answers_on_highlights fuel notes text position spans :
  plainKeys (map key notes) -> length text < fuel ->
  findAllSpans fuel (map key notes) text [] = Returns spans ->
  (exists sp, In sp spans /\
              startOffset sp <= character position <= endOffset sp) <->
  (exists n r, locate fuel notes text position = Returns (Some (n, r))).
Proof.
  intros Hkeys Hfuel Hspans.
  rewrite literal_findAllSpans in Hspans by assumption.
  simpl in Hspans. injection Hspans as <-.
  rewrite literal_locate by assumption.
  pose proof (firstHit_spec notes text position) as Hspec.
  split.
  - intros (sp & Hin & Hcol).
    apply in_flat_map in Hin. destruct Hin as (k & Hk & Hsp).
    apply in_map_iff in Hk. destruct Hk as (n & <- & Hn).
    unfold spansOf in Hsp. apply in_map_iff in Hsp. destruct Hsp as (j & <- & Hj).
    simpl in Hcol.
    destruct (firstHit notes text position) as [[n' r']|]; [eauto|].
    exfalso. apply (Hspec n Hn). exists j. auto.
  - intros (n & r & H). injection H as H. rewrite H in Hspec.
    destruct Hspec as (before & after & j & Hnotes & _ & Hj & Hcol & _).
    exists (mkSpan (key n) j (j + length (key n))). split; [|exact Hcol].
    apply in_flat_map. exists (key n). split.
    + apply in_map. rewrite Hnotes. apply in_or_app. right. left. reflexivity.
    + unfold spansOf. apply in_map_iff. exists j. auto.
Qed.

Lemma X14_witness :
  (exists sp, In sp [mkSpan (js "KEY") 3 6] /\ startOffset sp <= 4 <= endOffset sp) <->
  (exists n r, locate 20 [keyNote] (js "xx KEY") (mkPosition 0 4)
               = Returns (Some (n, r))).
Proof.
  apply (X14_hover_answers_on_highlights 20 [keyNote] (js "xx KEY") (mkPosition 0 4)
           [mkSpan (js "KEY") 3 6] plainKeys_keyNote);
    [simpl; lia|vm_compute; reflexivity].
Defined.
